(** * Field specifications of nucypher's control layer

    A shallow embedding of
    - [nucypher/control/specifications/fields/base.py]
      ([BaseField], [String], [List], [StringList], [Integer],
      [PositiveInteger]) and
    - [nucypher/characters/control/specifications/fields/label.py]
      ([Label]),
    together with the part of their marshmallow base classes and of the
    Python builtins ([str.split], [int], [str.encode], [bytes.decode]) that
    the methods above call, and of the functions of
    [tests/integration/conftest.py] that compute something from their
    arguments.

    Python values are a small inductive universe, exceptions are an explicit
    error type and every method is a function into [result]. *)

From Stdlib Require Import ZArith NArith Lia Strings.Byte Ascii String Sorted.
From stdpp Require Import base option list strings gmap.

Local Open Scope N_scope.

Ltac Zify.zify_post_hook ::= Z.to_euclidean_division_equations.

(** ** Python values *)

(** A Python [str] is a sequence of code points (each below [0x110000]); a
    Python [bytes] is a sequence of bytes. *)
Abbreviation pystr := (list N).
Abbreviation pybytes := (list byte).

(** A Python [float]: the number [m * 2 ^ e] (every finite double is of
    this form), an infinity, or not a number. *)
Inductive pyfloat : Type :=
| Finite (m e : Z)
| Infinity (negative : bool)
| NaN.

#[warnings="-register-all"]
Inductive value : Type :=
| VNone
| VBool (b : bool)
| VInt (z : Z)
| VStr (s : pystr)
| VBytes (b : pybytes)
| VList (l : list value)
| VTuple (l : list value)
| VFloat (x : pyfloat).

#[global] Instance byte_eq_dec : EqDecision byte := Byte.byte_eq_dec.

(** Text and byte literals, written with ASCII string literals. *)
Definition text (s : string) : pystr :=
  (λ b, Byte.to_N b) <$> list_byte_of_string s.
Definition bytes (s : string) : pybytes := list_byte_of_string s.

(** ** UTF-8 *)

Definition byte_of (n : N) : byte := default "000"%byte (Byte.of_N n).

(** [str.encode()] of one code point.  Surrogates (and numbers that are not
    code points) have no encoding. *)
Definition utf8_encode_char (c : N) : option pybytes :=
  if c <? 0x80 then Some [byte_of c]
  else if c <? 0x800 then
    Some [byte_of (0xC0 + c / 64); byte_of (0x80 + c mod 64)]
  else if c <? 0x10000 then
    if (0xD800 <=? c) && (c <? 0xE000) then None
    else Some [byte_of (0xE0 + c / 4096);
               byte_of (0x80 + (c / 64) mod 64);
               byte_of (0x80 + c mod 64)]
  else if c <? 0x110000 then
    Some [byte_of (0xF0 + c / 262144);
          byte_of (0x80 + (c / 4096) mod 64);
          byte_of (0x80 + (c / 64) mod 64);
          byte_of (0x80 + c mod 64)]
  else None.

Fixpoint utf8_encode (s : pystr) : option pybytes :=
  match s with
  | [] => Some []
  | c :: r =>
      bs ← utf8_encode_char c;
      rs ← utf8_encode r;
      Some (bs ++ rs)
  end.

Definition is_continuation (b : byte) : bool :=
  (0x80 <=? Byte.to_N b) && (Byte.to_N b <? 0xC0).

Definition tail_bits (b : byte) : N := Byte.to_N b - 0x80.

(** [bytes.decode('utf-8')] with the default strict error handling: overlong
    forms, surrogates, values above [0x10FFFF], stray continuation bytes and
    truncated sequences are all rejected. *)
Fixpoint utf8_decode (bs : pybytes) : option pystr :=
  match bs with
  | [] => Some []
  | b0 :: r0 =>
      let n0 := Byte.to_N b0 in
      if n0 <? 0x80 then cons n0 <$> utf8_decode r0
      else if n0 <? 0xC2 then None
      else if n0 <? 0xE0 then
        match r0 with
        | b1 :: r1 =>
            if is_continuation b1
            then cons ((n0 - 0xC0) * 64 + tail_bits b1) <$> utf8_decode r1
            else None
        | _ => None
        end
      else if n0 <? 0xF0 then
        match r0 with
        | b1 :: b2 :: r2 =>
            if is_continuation b1 && is_continuation b2 then
              let c := (n0 - 0xE0) * 4096 + tail_bits b1 * 64 + tail_bits b2 in
              if (c <? 0x800) || ((0xD800 <=? c) && (c <? 0xE000)) then None
              else cons c <$> utf8_decode r2
            else None
        | _ => None
        end
      else if n0 <? 0xF5 then
        match r0 with
        | b1 :: b2 :: b3 :: r3 =>
            if is_continuation b1 && is_continuation b2 && is_continuation b3 then
              let c := (n0 - 0xF0) * 262144 + tail_bits b1 * 4096
                       + tail_bits b2 * 64 + tail_bits b3 in
              if (c <? 0x10000) || (0x110000 <=? c) then None
              else cons c <$> utf8_decode r3
            else None
        | _ => None
        end
      else None
  end.

(** ** Exceptions and results *)

(** The [messages] of a marshmallow [ValidationError]: a list of message
    strings, or (for a sequence field) a dict from the index of a failing
    element to that element's messages, kept in insertion order. *)
#[warnings="-register-all"]
Inductive messages : Type :=
| Messages (l : list string)
| IndexedMessages (m : list (nat * messages)).

Inductive exn : Type :=
| ValidationError (m : messages) (valid_data : option value)
| InvalidInputData (msg : string)
| AttributeError
| TypeError
| ValueError
| UnicodeDecodeError
| UnicodeEncodeError
| OverflowError.

Inductive result (A : Type) : Type :=
| Ok (a : A)
| Raise (e : exn).
Arguments Ok {A} a.
Arguments Raise {A} e.

#[global] Instance result_ret : MRet result := @Ok.
#[global] Instance result_bind : MBind result := λ A B f m,
  match m with
  | Ok a => f a
  | Raise e => Raise e
  end.
#[global] Instance result_fmap : FMap result := λ A B f m,
  match m with
  | Ok a => Ok (f a)
  | Raise e => Raise e
  end.

(** Modelled from the spec: [nucypher.control.specifications.exceptions],
    which declares [InvalidInputData], is not among the sources.  The spec's
    error taxonomy has one input-validation error kind, [ValidationError],
    raised by coercion and by [validate] alike, so [InvalidInputData] counts
    as a [ValidationError] (an [except ValidationError] catches it, and its
    [messages] is the one-element list holding its message). *)
Definition is_ValidationError (e : exn) : bool :=
  match e with
  | ValidationError _ _ | InvalidInputData _ => true
  | _ => false
  end.

Definition exn_messages (e : exn) : messages :=
  match e with
  | ValidationError m _ => m
  | InvalidInputData msg => Messages [msg]
  | _ => Messages []
  end.

Definition exn_valid_data (e : exn) : option value :=
  match e with
  | ValidationError _ d => d
  | _ => None
  end.

(** [Field.make_error(key)]: a [ValidationError] holding the message
    registered under [key]. *)
Definition make_error (msg : string) : exn :=
  ValidationError (Messages [msg]) None.

(** ** Python builtins used by the fields *)

Section sequences.
Context {A : Type} `{EqDecision A}.

Fixpoint starts_with (s pre : list A) : bool :=
  match pre, s with
  | [], _ => true
  | p :: pre', c :: s' => bool_decide (p = c) && starts_with s' pre'
  | _ :: _, [] => false
  end.

(** The segments of [s] between the occurrences of [sep], found from the
    left and not overlapping.  After a match the remaining [skip] elements
    of the separator are passed over. *)
Fixpoint split_on (sep : list A) (skip : nat) (s : list A) : list (list A) :=
  match s with
  | [] => [[]]
  | c :: r =>
      match skip with
      | S k => split_on sep k r
      | O =>
          if starts_with s sep
          then [] :: split_on sep (length sep - 1) r
          else match split_on sep 0 r with
               | seg :: segs => (c :: seg) :: segs
               | [] => [[c]]
               end
      end
  end.

(** [s.split(sep)] for a separator that is not empty. *)
Definition split (sep s : list A) : list (list A) := split_on sep 0 s.

(** [sep.join(segs)]. *)
Fixpoint join (sep : list A) (segs : list (list A)) : list A :=
  match segs with
  | [] => []
  | [x] => x
  | x :: rest => x ++ sep ++ join sep rest
  end.

(** [s.split()] / [s.split(None)]: the maximal runs of elements that are
    not white space. *)
Fixpoint split_whitespace (is_space : A → bool) (cur : list A) (s : list A)
  : list (list A) :=
  match s with
  | [] => match cur with [] => [] | _ => [reverse cur] end
  | c :: r =>
      if is_space c
      then match cur with
           | [] => split_whitespace is_space [] r
           | _ => reverse cur :: split_whitespace is_space [] r
           end
      else split_whitespace is_space (c :: cur) r
  end.

Fixpoint lstrip (is_space : A → bool) (s : list A) : list A :=
  match s with
  | c :: r => if is_space c then lstrip is_space r else s
  | [] => []
  end.

Definition strip (is_space : A → bool) (s : list A) : list A :=
  reverse (lstrip is_space (reverse (lstrip is_space s))).
End sequences.

(** [str.isspace] of one code point. *)
Definition str_isspace (c : N) : bool :=
  ((0x09 <=? c) && (c <=? 0x0D)) || ((0x1C <=? c) && (c <=? 0x20))
  || (c =? 0x85) || (c =? 0xA0) || (c =? 0x1680)
  || ((0x2000 <=? c) && (c <=? 0x200A))
  || (c =? 0x2028) || (c =? 0x2029) || (c =? 0x202F) || (c =? 0x205F)
  || (c =? 0x3000).

(** White space of a [bytes] object. *)
Definition bytes_isspace (b : byte) : bool :=
  let c := Byte.to_N b in ((0x09 <=? c) && (c <=? 0x0D)) || (c =? 0x20).

(** [value.split(delimiter)].  Only [str] and [bytes] have the method; the
    separator has to be of the type of the receiver (or [None]) and must not
    be empty. *)
Definition py_split (v delimiter : value) : result value :=
  match v with
  | VStr s =>
      match delimiter with
      | VStr [] => Raise ValueError
      | VStr sep => Ok (VList (VStr <$> split sep s))
      | VNone => Ok (VList (VStr <$> split_whitespace str_isspace [] s))
      | _ => Raise TypeError
      end
  | VBytes b =>
      match delimiter with
      | VBytes [] => Raise ValueError
      | VBytes sep => Ok (VList (VBytes <$> split sep b))
      | VNone => Ok (VList (VBytes <$> split_whitespace bytes_isspace [] b))
      | _ => Raise TypeError
      end
  | _ => Raise AttributeError
  end.

(** The white space [int] strips from the ends of a text: the white space
    of ASCII and the white space outside ASCII.  (The separators [U+001C]
    to [U+001F], white space for [str.split], are not stripped.) *)
Definition int_isspace (c : N) : bool :=
  ((0x09 <=? c) && (c <=? 0x0D)) || (c =? 0x20)
  || (c =? 0x85) || (c =? 0xA0) || (c =? 0x1680)
  || ((0x2000 <=? c) && (c <=? 0x200A))
  || (c =? 0x2028) || (c =? 0x2029) || (c =? 0x202F) || (c =? 0x205F)
  || (c =? 0x3000).

(** The white space [int] strips from the ends of a byte sequence. *)
Definition ascii_isspace (c : N) : bool :=
  ((0x09 <=? c) && (c <=? 0x0D)) || (c =? 0x20).

(** The digits zero of the decimal digits of Unicode 14.0, the character
    data of CPython 3.11: each is followed by the digits one to nine of
    its script. *)
Definition decimal_zeros : list N :=
  [0x30; 0x660; 0x6F0; 0x7C0; 0x966; 0x9E6; 0xA66; 0xAE6; 0xB66; 0xBE6;
   0xC66; 0xCE6; 0xD66; 0xDE6; 0xE50; 0xED0; 0xF20; 0x1040; 0x1090; 0x17E0;
   0x1810; 0x1946; 0x19D0; 0x1A80; 0x1A90; 0x1B50; 0x1BB0; 0x1C40; 0x1C50;
   0xA620; 0xA8D0; 0xA900; 0xA9D0; 0xA9F0; 0xAA50; 0xABF0; 0xFF10; 0x104A0;
   0x10D30; 0x11066; 0x110F0; 0x11136; 0x111D0; 0x112F0; 0x11450; 0x114D0;
   0x11650; 0x116C0; 0x11730; 0x118E0; 0x11950; 0x11C50; 0x11D50; 0x11DA0;
   0x16A60; 0x16AC0; 0x16B50; 0x1D7CE; 0x1D7D8; 0x1D7E2; 0x1D7EC; 0x1D7F6;
   0x1E140; 0x1E2F0; 0x1E950; 0x1FBF0].

(** [unicodedata.decimal]: the value of a decimal digit, of any script. *)
Definition digit_value (c : N) : option Z :=
  (λ zero, Z.of_N (c - zero))
    <$> List.find (λ zero, (zero <=? c) && (c <? zero + 10)) decimal_zeros.

(** Digits, with single underscores allowed between two digits. *)
Fixpoint parse_digits (acc : Z) (after_digit : bool) (s : pystr) : option Z :=
  match s with
  | [] => if after_digit then Some acc else None
  | c :: r =>
      match digit_value c with
      | Some d => parse_digits (10 * acc + d)%Z true r
      | None =>
          if (c =? 95) && after_digit then parse_digits acc false r else None
      end
  end.

(** [sys.get_int_max_str_digits()], at its default: [int] refuses a numeral
    of more digits. *)
Definition int_max_str_digits : nat := 4300.

(** The number of digits of a numeral; underscores do not count. *)
Definition digit_count (s : pystr) : nat :=
  length (filter (λ c, is_Some (digit_value c)) s).

Definition parse_unsigned (s : pystr) : option Z :=
  if (digit_count s <=? int_max_str_digits)%nat
  then parse_digits 0 false s
  else None.

Definition parse_int (s : pystr) : option Z :=
  match s with
  | 45 :: r => Z.opp <$> parse_unsigned r
  | 43 :: r => parse_unsigned r
  | _ => parse_unsigned s
  end.

(** [int(x)] of the finite float [m * 2 ^ e]: the number rounded toward
    zero. *)
Definition truncate (m e : Z) : Z :=
  (if 0 <=? e then m * 2 ^ e else m ÷ 2 ^ (- e))%Z.

(** The numeral with the decimal digits [ds], and the number it denotes. *)
Definition decimal (ds : list N) : pystr := (λ d, 48 + d) <$> ds.
Definition decimal_value (ds : list N) : Z :=
  foldl (λ acc d, 10 * acc + Z.of_N d)%Z 0%Z ds.

(** [int(value)]. *)
Definition py_int (v : value) : result Z :=
  match v with
  | VInt z => Ok z
  | VBool b => Ok (if b then 1 else 0)%Z
  | VFloat (Finite m e) => Ok (truncate m e)
  | VFloat (Infinity _) => Raise OverflowError
  | VFloat NaN => Raise ValueError
  | VStr s =>
      match parse_int (strip int_isspace s) with
      | Some z => Ok z
      | None => Raise ValueError
      end
  | VBytes b =>
      match parse_int (strip ascii_isspace (Byte.to_N <$> b)) with
      | Some z => Ok z
      | None => Raise ValueError
      end
  | VNone | VList _ | VTuple _ => Raise TypeError
  end.

(** *** Base-10 integers

    What it is for an input to be a base-10 integer, stated on the input
    itself and not by way of [parse_int]: the parser above is [int] as
    CPython runs it, the grammar below is what it is compared with. *)

(** The number with the decimal digits [ds]. *)
Definition digits_value (ds : list Z) : Z :=
  foldl (λ acc d, 10 * acc + d)%Z 0%Z ds.

(** Decimal digits, one or more, with single underscores allowed between
    two digits, and the values of the digits. *)
Inductive grouped_digits : pystr → list Z → Prop :=
| digits_one c d :
    digit_value c = Some d → grouped_digits [c] [d]
| digits_next c d body ds :
    digit_value c = Some d → grouped_digits body ds →
    grouped_digits (c :: body) (d :: ds)
| digits_underscore c d body ds :
    digit_value c = Some d → grouped_digits body ds →
    grouped_digits (c :: 95 :: body) (d :: ds).

(** A base-10 numeral: digits, of at most [int_max_str_digits], with or
    without a sign in front, and the integer it denotes. *)
Inductive signed_numeral : pystr → Z → Prop :=
| numeral_unsigned body ds :
    grouped_digits body ds → (length ds ≤ int_max_str_digits)%nat →
    signed_numeral body (digits_value ds)
| numeral_plus body ds :
    grouped_digits body ds → (length ds ≤ int_max_str_digits)%nat →
    signed_numeral (43 :: body) (digits_value ds)
| numeral_minus body ds :
    grouped_digits body ds → (length ds ≤ int_max_str_digits)%nat →
    signed_numeral (45 :: body) (- digits_value ds).

(** A text that is a base-10 integer: a numeral, with white space allowed
    before and after it. *)
Inductive base10_integer (is_space : N → bool) : pystr → Z → Prop :=
| base10 ws1 numeral ws2 z :
    Forall (λ c, is_space c = true) ws1 →
    Forall (λ c, is_space c = true) ws2 →
    signed_numeral numeral z →
    base10_integer is_space (ws1 ++ numeral ++ ws2) z.

(** The raw values that can be parsed as a base-10 integer, and the
    integer: an integer, and a text or a byte sequence that is a base-10
    integer. *)
Inductive base10_input : value → Z → Prop :=
| base10_int z : base10_input (VInt z) z
| base10_text s z :
    base10_integer int_isspace s z → base10_input (VStr s) z
| base10_bytes b z :
    base10_integer ascii_isspace (Byte.to_N <$> b) z →
    base10_input (VBytes b) z.

(** The raw values that [Integer] reads as an integer, and the integer:
    those that can be parsed as a base-10 integer and, rounded toward zero,
    the finite floats.  ([int] reads the booleans as well; [Integer]
    refuses them.) *)
Inductive integer_input : value → Z → Prop :=
| input_int z : integer_input (VInt z) z
| input_float m e : integer_input (VFloat (Finite m e)) (truncate m e)
| input_text s z :
    base10_integer int_isspace s z → integer_input (VStr s) z
| input_bytes b z :
    base10_integer ascii_isspace (Byte.to_N <$> b) z →
    integer_input (VBytes b) z.

(** [value > 0]. *)
Definition py_gt_0 (v : value) : result bool :=
  match v with
  | VInt z => Ok (0 <? z)%Z
  | VBool b => Ok b
  | VFloat (Finite m _) => Ok (0 <? m)%Z
  | VFloat (Infinity negative) => Ok (negb negative)
  | VFloat NaN => Ok false
  | _ => Raise TypeError
  end.

(** [value.encode()] and [value.decode('utf-8')]. *)
Definition py_encode (v : value) : result value :=
  match v with
  | VStr s =>
      match utf8_encode s with
      | Some b => Ok (VBytes b)
      | None => Raise UnicodeEncodeError
      end
  | _ => Raise AttributeError
  end.

Definition py_decode (v : value) : result value :=
  match v with
  | VBytes b =>
      match utf8_decode b with
      | Some s => Ok (VStr s)
      | None => Raise UnicodeDecodeError
      end
  | _ => Raise AttributeError
  end.

(** [for each in value]: the items of an iterable. *)
Definition py_iter (v : value) : result (list value) :=
  match v with
  | VList l | VTuple l => Ok l
  | VStr s => Ok ((λ c, VStr [c]) <$> s)
  | VBytes b => Ok ((λ x, VInt (Z.of_N (Byte.to_N x))) <$> b)
  | VNone | VBool _ | VInt _ | VFloat _ => Raise TypeError
  end.

(** The f-string rendering [{self.name}] of a field's name; the name is
    [None] until a schema binds the field. *)
Definition format_name (name : option string) : string :=
  default "None"%string name.

(** ** The fields *)

(** [click.STRING] and [click.INT]. *)
Inductive ParamType : Type := STRING | INT.

(** A field instance, as far as its conversions depend on it: its class and,
    for the sequence fields, the element field and the delimiter.  The
    options of the marshmallow base classes ([required], [allow_none],
    [validate], [strict], [as_string]) are at their defaults. *)
Inductive field : Type :=
| String
| Integer
| PositiveInteger
| Label
| List (inner : field)
| StringList (inner : field) (delimiter : value).

(** The class attribute [click_type]: [BaseField] has
    [click_type = click.STRING], [Integer] has [click_type = click.INT] and
    [PositiveInteger] inherits from [Integer]; [String], [List], [Label]
    and [StringList] leave the attribute of [BaseField] alone. *)
Definition click_type (f : field) : ParamType :=
  match f with
  | Integer | PositiveInteger => INT
  | String | Label | List _ | StringList _ _ => STRING
  end.

(** [BaseField.__init__]:
    {[
      self.click = kwargs.pop('click', None)
      super().__init__(...)          # with the arguments that are left
    ]}
    The result is [self.click] and the keyword arguments handed on to
    [super().__init__]. *)
Definition BaseField__init__ (kwargs : gmap string value)
  : value * gmap string value :=
  (default VNone (kwargs !! "click"), delete "click" kwargs).

(** [StringList.__init__]:
    {[
      self.delimiter = kwargs.pop('delimiter', ',')
      super().__init__(...)          # List, that is BaseField.__init__
    ]}
    The result is [self.delimiter], [self.click] and the keyword arguments
    that reach the marshmallow initializer. *)
Definition StringList__init__ (kwargs : gmap string value)
  : value * value * gmap string value :=
  let delimiter := default (VStr (text ",")) (kwargs !! "delimiter") in
  let kwargs := delete "delimiter" kwargs in
  let '(click, kwargs) := BaseField__init__ kwargs in
  (delimiter, click, kwargs).

(** [StringList(inner, **kwargs)]. *)
Definition new_StringList (inner : field) (kwargs : gmap string value) : field :=
  StringList inner (StringList__init__ kwargs).1.1.

(** *** Deserialization *)

(** [marshmallow.fields.String._deserialize]:
    {[
      if not isinstance(value, (str, bytes)): raise self.make_error("invalid")
      try: return utils.ensure_text_type(value)     # decodes bytes
      except UnicodeDecodeError as error:
          raise self.make_error("invalid_utf8") from error
    ]} *)
Definition String__deserialize (v : value) : result value :=
  match v with
  | VStr s => Ok (VStr s)
  | VBytes b =>
      match utf8_decode b with
      | Some s => Ok (VStr s)
      | None => Raise (make_error "Not a valid utf-8 string.")
      end
  | _ => Raise (make_error "Not a valid string.")
  end.

(** [marshmallow.fields.Integer._deserialize], which [Integer] inherits
    ([Number._validated] with [num_type = int]):
    {[
      if value is None: return None
      if value is True or value is False:
          raise self.make_error("invalid", input=value)
      try: return self._format_num(value)            # int(value)
      except (TypeError, ValueError) as error:
          raise self.make_error("invalid", input=value) from error
      except OverflowError as error:
          raise self.make_error("too_large", input=value) from error
    ]} *)
Definition Integer__deserialize (v : value) : result value :=
  match v with
  | VNone => Ok VNone
  | VBool _ => Raise (make_error "Not a valid integer.")
  | _ =>
      match py_int v with
      | Ok z => Ok (VInt z)
      | Raise TypeError | Raise ValueError =>
          Raise (make_error "Not a valid integer.")
      | Raise OverflowError => Raise (make_error "Number too large.")
      | Raise e => Raise e
      end
  end.

(** [Label._deserialize]:
    {[
      if isinstance(value, bytes): return value
      return value.encode()
    ]} *)
Definition Label__deserialize (v : value) : result value :=
  match v with
  | VBytes _ => Ok v
  | _ => py_encode v
  end.

(** [utils.is_collection]: iterable, neither a string nor a mapping. *)
Definition is_collection (v : value) : bool :=
  match v with
  | VList _ | VTuple _ => true
  | _ => false
  end.

(** The loop of [marshmallow.fields.List._deserialize]:
    {[
      for idx, each in enumerate(value):
          try: result.append(self.inner.deserialize(each, **kwargs))
          except ValidationError as error:
              if error.valid_data is not None:
                  result.append(error.valid_data)
              errors.update({idx: error.messages})
    ]}
    [acc] is [result] and [errors] the dict of the messages of the failing
    elements.  Only a [ValidationError] is caught. *)
Fixpoint List_loop (inner_deserialize : value → result value) (idx : nat)
    (items acc : list value) (errors : list (nat * messages))
  : result (list value * list (nat * messages)) :=
  match items with
  | [] => Ok (acc, errors)
  | each :: rest =>
      match inner_deserialize each with
      | Ok x => List_loop inner_deserialize (S idx) rest (acc ++ [x]) errors
      | Raise e =>
          if is_ValidationError e
          then List_loop inner_deserialize (S idx) rest
                 (acc ++ option_list (exn_valid_data e))
                 (errors ++ [(idx, exn_messages e)])
          else Raise e
      end
  end.

(** [marshmallow.fields.List._deserialize], which [List] inherits:
    {[
      if not utils.is_collection(value): raise self.make_error("invalid")
      result = []; errors = {}
      for idx, each in enumerate(value): ...         # [List_loop]
      if errors: raise ValidationError(errors, valid_data=result)
      return result
    ]} *)
Definition List__deserialize (inner_deserialize : value → result value)
    (v : value) : result value :=
  if is_collection v then
    items ← py_iter v;
    '(acc, errors) ← List_loop inner_deserialize 0 items [] [];
    match errors with
    | [] => Ok (VList acc)
    | _ => Raise (ValidationError (IndexedMessages errors) (Some (VList acc)))
    end
  else Raise (make_error "Not a valid list.").

(** [StringList._deserialize]:
    {[
      if not isinstance(value, list):
          value = value.split(self.delimiter)
      return super()._deserialize(value, attr, data, **kwargs)
    ]} *)
Definition StringList__deserialize (delimiter : value)
    (super__deserialize : value → result value) (v : value) : result value :=
  v ← match v with
      | VList _ => Ok v
      | _ => py_split v delimiter
      end;
  super__deserialize v.

(** [fields.Field._validate] of a field without validators. *)
Definition Field__validate (v : value) : result unit := Ok tt.

(** [PositiveInteger._validate]:
    {[
      if not value > 0:
          raise InvalidInputData(f"{self.name} must be a positive integer.")
    ]} *)
Definition PositiveInteger__validate (name : option string) (v : value)
  : result unit :=
  positive ← py_gt_0 v;
  if negb positive
  then Raise (InvalidInputData
                (format_name name ++ " must be a positive integer."))
  else Ok tt.

(** [field._validate]: only [PositiveInteger] overrides the method of
    [fields.Field]. *)
Definition _validate (name : option string) (f : field) : value → result unit :=
  match f with
  | PositiveInteger => PositiveInteger__validate name
  | _ => Field__validate
  end.

(** [marshmallow.fields.Field.deserialize] for a value that is present and
    a field that does not allow [None]:
    {[
      self._validate_missing(value)      # None: raise self.make_error("null")
      output = self._deserialize(value, attr, data, **kwargs)
      self._validate(output)
      return output
    ]} *)
Definition Field_deserialize (_deserialize : value → result value)
    (_validate : value → result unit) (v : value) : result value :=
  match v with
  | VNone => Raise (make_error "Field may not be null.")
  | _ =>
      output ← _deserialize v;
      _ ← _validate output;
      Ok output
  end.

(** [field.deserialize(value)]; the element field of a sequence field is
    bound under the name of the sequence field. *)
Fixpoint deserialize (name : option string) (f : field) (v : value)
  : result value :=
  Field_deserialize
    match f with
    | String => String__deserialize
    | Integer | PositiveInteger => Integer__deserialize
    | Label => Label__deserialize
    | List inner => List__deserialize (deserialize name inner)
    | StringList inner delimiter =>
        StringList__deserialize delimiter
          (List__deserialize (deserialize name inner))
    end
    (_validate name f) v.

(** *** Serialization *)

(** A list comprehension [[f(each) for each in items]]. *)
Fixpoint comprehension (f : value → result value) (items : list value)
  : result (list value) :=
  match items with
  | [] => Ok []
  | each :: rest =>
      x ← f each;
      xs ← comprehension f rest;
      Ok (x :: xs)
  end.

(** [Label._serialize]:
    {[
      return value.decode('utf-8')
    ]} *)
Definition Label__serialize (v : value) : result value := py_decode v.

(** [marshmallow.fields.Integer._serialize] ([as_string] is off):
    {[
      if value is None: return None
      return self._format_num(value)                 # int(value)
    ]} *)
Definition Integer__serialize (v : value) : result value :=
  match v with
  | VNone => Ok VNone
  | _ => VInt <$> py_int v
  end.

(** [marshmallow.fields.List._serialize]:
    {[
      if value is None: return None
      return [self.inner._serialize(each, attr, obj, **kwargs)
              for each in value]
    ]} *)
Definition List__serialize (inner__serialize : value → result value)
    (v : value) : result value :=
  match v with
  | VNone => Ok VNone
  | _ =>
      items ← py_iter v;
      VList <$> comprehension inner__serialize items
  end.

Section serialization.
(** [str(value)] of a value that is not text. *)
Variable py_str : value → pystr.

(** [marshmallow.fields.String._serialize]:
    {[
      if value is None: return None
      return utils.ensure_text_type(value)   # bytes: decode; else str(value)
    ]} *)
Definition String__serialize (v : value) : result value :=
  match v with
  | VNone => Ok VNone
  | VStr s => Ok (VStr s)
  | VBytes _ => py_decode v
  | _ => Ok (VStr (py_str v))
  end.

(** [field.serialize], applied to the value taken from the object:
    [fields.Field.serialize] hands it to [_serialize]. *)
Fixpoint serialize (f : field) (v : value) : result value :=
  match f with
  | String => String__serialize v
  | Integer | PositiveInteger => Integer__serialize v
  | Label => Label__serialize v
  | List inner | StringList inner _ => List__serialize (serialize inner) v
  end.
End serialization.

(** *** Internal values *)

(** The internal values a field holds: text for [String], integers for
    [Integer], integers above zero for [PositiveInteger], byte sequences
    that are well-formed UTF-8 for [Label] (whose [serialize] decodes them)
    and lists of values of the element field for the sequence fields. *)
Fixpoint holds (f : field) (v : value) : bool :=
  match f, v with
  | String, VStr _ => true
  | Integer, VInt _ => true
  | PositiveInteger, VInt z => (0 <? z)%Z
  | Label, VBytes b => bool_decide (is_Some (utf8_decode b))
  | List inner, VList l | StringList inner _, VList l =>
      forallb (holds inner) l
  | _, _ => false
  end.

(** A code point that is not a surrogate. *)
Definition is_scalar_value (c : N) : Prop :=
  c < 0xD800 ∨ 0xE000 ≤ c < 0x110000.

(** *** The values [deserialize] returns *)

(** The shape of what a field's [deserialize] returns: a text for [String],
    an integer for [Integer], an integer above zero for [PositiveInteger],
    a byte sequence (well-formed UTF-8 or not) for [Label] and a list of
    outputs of the element field for the sequence fields. *)
Fixpoint internal (f : field) (v : value) : bool :=
  match f, v with
  | String, VStr _ => true
  | Integer, VInt _ => true
  | PositiveInteger, VInt z => (0 <? z)%Z
  | Label, VBytes _ => true
  | List inner, VList l | StringList inner _, VList l =>
      forallb (internal inner) l
  | _, _ => false
  end.

(** The fields that inherit [_deserialize] and [_validate] from their
    marshmallow class unchanged, all the way down: [String] and [List],
    whose class body is [pass], [Integer], which only sets [click_type], and
    a [List] of such a field.  [PositiveInteger] overrides [_validate];
    [Label] and [StringList] override [_deserialize]. *)
Fixpoint inherits_conversions (f : field) : bool :=
  match f with
  | String | Integer => true
  | List inner => inherits_conversions inner
  | PositiveInteger | Label | StringList _ _ => false
  end.

(** *** The two halves of a list conversion *)

(** The outputs of the elements that [convert] converts, in the order of
    the elements. *)
Definition converted (convert : value → result value) (items : list value)
  : list value :=
  omap (λ x, match convert x with Ok y => Some y | Raise _ => None end) items.

(** The messages of the elements that [convert] refuses, each with the
    index of its element (the first element has index [idx]), in the order
    of the elements. *)
Fixpoint refused (convert : value → result value) (idx : nat)
    (items : list value) : list (nat * messages) :=
  match items with
  | [] => []
  | x :: rest =>
      match convert x with
      | Ok _ => refused convert (S idx) rest
      | Raise e => (idx, exn_messages e) :: refused convert (S idx) rest
      end
  end.

(** ** Fixtures of the integration tests

    The functions of [tests/integration/conftest.py] that compute something
    from their arguments: the closures [mock_reservoir] and
    [successful_mock_keyfile_reader], and the fixtures [mock_account],
    [operator_account] and [operator_address]. *)

(** [sub in s] for two texts: [sub] occurs in [s]. *)
Fixpoint contains (s sub : pystr) : bool :=
  starts_with s sub
  || match s with
     | [] => false
     | _ :: r => contains r sub
     end.

(** [address not in without]; [None] is no container, and the test raises
    [TypeError].  A container is given by the list of its members. *)
Definition py_not_in (address : pystr) (without : option (list pystr))
  : result bool :=
  match without with
  | None => Raise TypeError
  | Some members => Ok (negb (bool_decide (address ∈ members)))
  end.

(** The dict comprehension of [mock_reservoir]:
    {[
      addresses = {
          address: 1
          for address in testerchain.stake_providers_accounts
          if address not in without
      }
    ]}
    [addresses] is the dict built so far. *)
Fixpoint mock_reservoir_addresses (stake_providers_accounts : list pystr)
    (without : option (list pystr)) (addresses : gmap pystr Z)
  : result (gmap pystr Z) :=
  match stake_providers_accounts with
  | [] => Ok addresses
  | address :: rest =>
      keep ← py_not_in address without;
      mock_reservoir_addresses rest without
        (if keep : bool then <[address := 1%Z]> addresses else addresses)
  end.

(** The object [StakingProvidersReservoir(addresses)], as the map of
    weights it is made from. *)
Inductive Reservoir : Type :=
| StakingProvidersReservoir (staking_provider_map : gmap pystr Z).

(** [mock_reservoir(without=None, ...)], given the accounts of the test
    chain; its other arguments are not looked at:
    {[
      addresses = {...}
      return StakingProvidersReservoir(addresses)
    ]} *)
Definition mock_reservoir (stake_providers_accounts : list pystr)
    (without : option (list pystr)) : result Reservoir :=
  addresses ← mock_reservoir_addresses stake_providers_accounts without ∅;
  Ok (StakingProvidersReservoir addresses).

(** An account, as far as the fixtures look at it. *)
Record Account : Type := { address : pystr }.

(** The exceptions of the fixtures. *)
Inductive fixture_error : Type :=
| AssertionError
| FileNotFoundError (msg : pystr)
| IndexError.

(** [mock_accounts] is a dict from file names to accounts; it is given by
    the list of its items, in the order of their insertion. *)
Abbreviation accounts_dict := (list (pystr * Account)).

(** [mock_account]:
    {[
      return list(mock_accounts.items())[0][1]
    ]} *)
Definition mock_account (mock_accounts : accounts_dict)
  : fixture_error + Account :=
  match mock_accounts with
  | [] => inl IndexError
  | item :: _ => inr item.2
  end.

(** [operator_account]:
    {[
      account = list(mock_accounts.values())[0]
      return account
    ]} *)
Definition operator_account (mock_accounts : accounts_dict)
  : fixture_error + Account :=
  match mock_accounts.*2 with
  | [] => inl IndexError
  | account :: _ => inr account
  end.

(** [operator_address], given what the fixture [operator_account] returned:
    {[
      address = operator_account.address
      return address
    ]} *)
Definition operator_address (operator_account : Account) : pystr :=
  address operator_account.

(** The search of [successful_mock_keyfile_reader] through
    [mock_accounts.items()], a dict in the order of its insertions:
    {[
      for filename, account in mock_accounts.items():
          if filename in full_path:
              break
      else:
          raise FileNotFoundError(f"No such file {full_path}")
    ]}
    It gives the [account] the loop stops at. *)
Fixpoint walk_mock_filesystem (items : accounts_dict)
    (full_path : pystr) : fixture_error + Account :=
  match items with
  | [] => inl (FileNotFoundError (text "No such file " ++ full_path))
  | (filename, account) :: rest =>
      if contains full_path filename then inr account
      else walk_mock_filesystem rest full_path
  end.

(** [successful_mock_keyfile_reader(_keystore, path)], for the path as a
    text (the membership tests of the source are tests on a [str]):
    {[
      assert MOCK_KEYSTORE_PATH in path
      full_path = path
      ...                               # [walk_mock_filesystem]
      return account.address, dict(version=3, address=account.address)
    ]} *)
Definition successful_mock_keyfile_reader (MOCK_KEYSTORE_PATH : pystr)
    (mock_accounts : accounts_dict) (path : pystr)
  : fixture_error + (pystr * gmap string value) :=
  if contains path MOCK_KEYSTORE_PATH then
    match walk_mock_filesystem mock_accounts path with
    | inr account =>
        inr (address account,
             {[ "version"%string := VInt 3;
                "address"%string := VStr (address account) ]})
    | inl e => inl e
    end
  else inl AssertionError.

(** * Properties *)

(** ** UTF-8 *)

Example utf8_encode_ascii : utf8_encode (text "text") = Some (bytes "text").
Proof. reflexivity. Qed.

Example utf8_encode_euro :
  utf8_encode [0x20AC] = Some (byte_of <$> [0xE2; 0x82; 0xAC]).
Proof. reflexivity. Qed.

Example utf8_decode_euro :
  utf8_decode (byte_of <$> [0xE2; 0x82; 0xAC]) = Some [0x20AC].
Proof. reflexivity. Qed.

Example utf8_decode_overlong : utf8_decode (byte_of <$> [0xC0; 0x80]) = None.
Proof. reflexivity. Qed.

Example utf8_encode_surrogate : utf8_encode [0xD800] = None.
Proof. reflexivity. Qed.

(** *** The codec round-trips *)

Lemma to_N_byte_of (n : N) : n < 256 → Byte.to_N (byte_of n) = n.
Proof.
  intros Hn. unfold byte_of.
  destruct (Byte.of_N n) as [b|] eqn:E.
  - simpl. by apply Byte.to_of_N.
  - apply Byte.of_N_None_iff in E. lia.
Qed.

Lemma byte_of_to_N (b : byte) : byte_of (Byte.to_N b) = b.
Proof. unfold byte_of. by rewrite Byte.of_to_N. Qed.

Lemma to_N_lt_256 (b : byte) : Byte.to_N b < 256.
Proof. pose proof (Byte.to_N_bounded b). lia. Qed.

Ltac split_comparisons :=
  repeat match goal with
    | |- context [N.ltb ?a ?b] => destruct (N.ltb_spec a b)
    | |- context [N.leb ?a ?b] => destruct (N.leb_spec a b)
    | H : context [N.ltb ?a ?b] |- _ => destruct (N.ltb_spec a b)
    | H : context [N.leb ?a ?b] |- _ => destruct (N.leb_spec a b)
    end.

Lemma is_continuation_bounds (b : byte) :
  is_continuation b = true ↔ 0x80 ≤ Byte.to_N b < 0xC0.
Proof. unfold is_continuation. split_comparisons; simpl; intuition (lia || done). Qed.

Lemma byte_of_eq (n : N) (b : byte) : n = Byte.to_N b → byte_of n = b.
Proof. intros ->. apply byte_of_to_N. Qed.

Lemma utf8_encode_char_1 (b0 : byte) :
  Byte.to_N b0 < 0x80 → utf8_encode_char (Byte.to_N b0) = Some [b0].
Proof.
  intros H. unfold utf8_encode_char.
  split_comparisons; try lia. by rewrite byte_of_to_N.
Qed.

Lemma utf8_encode_char_2 (b0 b1 : byte) :
  0xC2 ≤ Byte.to_N b0 < 0xE0 → is_continuation b1 = true →
  utf8_encode_char ((Byte.to_N b0 - 0xC0) * 64 + tail_bits b1) = Some [b0; b1].
Proof.
  intros H0 H1%is_continuation_bounds. unfold utf8_encode_char, tail_bits.
  split_comparisons; try lia.
  repeat f_equal; apply byte_of_eq; lia.
Qed.

Lemma utf8_encode_char_3 (b0 b1 b2 : byte) :
  let c := (Byte.to_N b0 - 0xE0) * 4096 + tail_bits b1 * 64 + tail_bits b2 in
  0xE0 ≤ Byte.to_N b0 < 0xF0 →
  is_continuation b1 = true → is_continuation b2 = true →
  (c <? 0x800) || ((0xD800 <=? c) && (c <? 0xE000)) = false →
  utf8_encode_char c = Some [b0; b1; b2].
Proof.
  intros c H0 H1%is_continuation_bounds H2%is_continuation_bounds Hc.
  unfold utf8_encode_char. subst c. unfold tail_bits in *.
  split_comparisons; simpl in *; try lia; try done.
  all: repeat f_equal; apply byte_of_eq; lia.
Qed.

Lemma utf8_encode_char_4 (b0 b1 b2 b3 : byte) :
  let c := (Byte.to_N b0 - 0xF0) * 262144 + tail_bits b1 * 4096
           + tail_bits b2 * 64 + tail_bits b3 in
  0xF0 ≤ Byte.to_N b0 < 0xF5 →
  is_continuation b1 = true → is_continuation b2 = true →
  is_continuation b3 = true →
  (c <? 0x10000) || (0x110000 <=? c) = false →
  utf8_encode_char c = Some [b0; b1; b2; b3].
Proof.
  intros c H0 H1%is_continuation_bounds H2%is_continuation_bounds
    H3%is_continuation_bounds Hc.
  unfold utf8_encode_char. subst c. unfold tail_bits in *.
  split_comparisons; simpl in *; try lia; try done.
  all: repeat f_equal; apply byte_of_eq; lia.
Qed.

(** Decoding a well-formed sequence and encoding the text again gives the
    same bytes. *)
Lemma utf8_encode_decode (bs : pybytes) (s : pystr) :
  utf8_decode bs = Some s → utf8_encode s = Some bs.
Proof.
  remember (length bs) as n eqn:Hn. revert bs s Hn.
  induction n as [n IH] using lt_wf_ind. intros bs s Hn.
  assert (Hrec : ∀ r s', (length r < length bs)%nat →
            utf8_decode r = Some s' → utf8_encode s' = Some r).
  { intros r s' Hlt. apply (IH (length r)); [lia | done]. }
  clear IH Hn.
  destruct bs as [|b0 r0]; simpl.
  { by intros [= <-]. }
  destruct (N.ltb_spec (Byte.to_N b0) 0x80) as [H80|H80].
  { destruct (utf8_decode r0) as [s0|] eqn:E0; intros [= <-].
    cbn [utf8_encode]. rewrite utf8_encode_char_1 by done.
    rewrite (Hrec r0 s0) by (simpl; lia || done). done. }
  destruct (N.ltb_spec (Byte.to_N b0) 0xC2) as [HC2|HC2]; [done|].
  destruct (N.ltb_spec (Byte.to_N b0) 0xE0) as [HE0|HE0].
  { destruct r0 as [|b1 r1]; [done|].
    destruct (is_continuation b1) eqn:C1; [|done].
    destruct (utf8_decode r1) as [s1|] eqn:E1; intros [= <-].
    cbn [utf8_encode]. rewrite utf8_encode_char_2 by (done || lia).
    rewrite (Hrec r1 s1) by (simpl; lia || done). done. }
  destruct (N.ltb_spec (Byte.to_N b0) 0xF0) as [HF0|HF0].
  { destruct r0 as [|b1 [|b2 r2]]; [done..|].
    destruct (is_continuation b1) eqn:C1; [|done].
    destruct (is_continuation b2) eqn:C2; [|done].
    cbn [andb].
    match goal with |- context [orb ?a ?b] => destruct (orb a b) eqn:Hc end;
      [done|].
    destruct (utf8_decode r2) as [s2|] eqn:E2; intros [= <-].
    cbn [utf8_encode]. rewrite utf8_encode_char_3 by (done || lia).
    rewrite (Hrec r2 s2) by (simpl; lia || done). done. }
  destruct (N.ltb_spec (Byte.to_N b0) 0xF5) as [HF5|HF5]; [|done].
  destruct r0 as [|b1 [|b2 [|b3 r3]]]; [done..|].
  destruct (is_continuation b1) eqn:C1; [|done].
  destruct (is_continuation b2) eqn:C2; [|done].
  destruct (is_continuation b3) eqn:C3; [|done].
  cbn [andb].
  match goal with |- context [orb ?a ?b] => destruct (orb a b) eqn:Hc end;
    [done|].
  destruct (utf8_decode r3) as [s3|] eqn:E3; intros [= <-].
  cbn [utf8_encode]. rewrite utf8_encode_char_4 by (done || lia).
  rewrite (Hrec r3 s3) by (simpl; lia || done). done.
Qed.

Ltac decide_comparisons :=
  repeat match goal with
    | |- context [N.ltb ?a ?b] =>
        first [ rewrite (proj2 (N.ltb_lt a b)) by lia
              | rewrite (proj2 (N.ltb_ge a b)) by lia ]
    | |- context [N.leb ?a ?b] =>
        first [ rewrite (proj2 (N.leb_le a b)) by lia
              | rewrite (proj2 (N.leb_gt a b)) by lia ]
    end.

Ltac decode_head :=
  cbn [utf8_decode]; unfold is_continuation, tail_bits;
  rewrite !to_N_byte_of by lia; decide_comparisons; cbn [andb orb].

Lemma utf8_decode_1 (n0 : N) (rest : pybytes) :
  n0 < 0x80 →
  utf8_decode (byte_of n0 :: rest) = cons n0 <$> utf8_decode rest.
Proof. intros. by decode_head. Qed.

Lemma utf8_decode_2 (n0 n1 : N) (rest : pybytes) :
  0xC2 ≤ n0 < 0xE0 → 0x80 ≤ n1 < 0xC0 →
  utf8_decode (byte_of n0 :: byte_of n1 :: rest)
  = cons ((n0 - 0xC0) * 64 + (n1 - 0x80)) <$> utf8_decode rest.
Proof. intros. by decode_head. Qed.

Lemma utf8_decode_3 (n0 n1 n2 : N) (rest : pybytes) :
  let c := (n0 - 0xE0) * 4096 + (n1 - 0x80) * 64 + (n2 - 0x80) in
  0xE0 ≤ n0 < 0xF0 → 0x80 ≤ n1 < 0xC0 → 0x80 ≤ n2 < 0xC0 →
  0x800 ≤ c → ¬ (0xD800 ≤ c < 0xE000) →
  utf8_decode (byte_of n0 :: byte_of n1 :: byte_of n2 :: rest)
  = cons c <$> utf8_decode rest.
Proof.
  intros c ?????. subst c. decode_head.
  split_comparisons; cbn [andb]; (done || lia).
Qed.

Lemma utf8_decode_4 (n0 n1 n2 n3 : N) (rest : pybytes) :
  let c := (n0 - 0xF0) * 262144 + (n1 - 0x80) * 4096
           + (n2 - 0x80) * 64 + (n3 - 0x80) in
  0xF0 ≤ n0 < 0xF5 → 0x80 ≤ n1 < 0xC0 → 0x80 ≤ n2 < 0xC0 →
  0x80 ≤ n3 < 0xC0 → 0x10000 ≤ c < 0x110000 →
  utf8_decode (byte_of n0 :: byte_of n1 :: byte_of n2 :: byte_of n3 :: rest)
  = cons c <$> utf8_decode rest.
Proof. intros c ?????. subst c. by decode_head. Qed.

Lemma utf8_decode_encode_char (c : N) (bs rest : pybytes) :
  utf8_encode_char c = Some bs →
  utf8_decode (bs ++ rest) = cons c <$> utf8_decode rest.
Proof.
  unfold utf8_encode_char.
  destruct (N.ltb_spec c 0x80).
  { intros [= <-]. by apply utf8_decode_1. }
  destruct (N.ltb_spec c 0x800).
  { intros [= <-]. cbn [app]. rewrite utf8_decode_2 by lia.
    f_equal. f_equal. lia. }
  destruct (N.ltb_spec c 0x10000).
  { destruct (N.leb_spec 0xD800 c), (N.ltb_spec c 0xE000);
      cbn [andb]; try done.
    all: intros [= <-]; cbn [app]; rewrite utf8_decode_3 by lia.
    all: f_equal; f_equal; lia. }
  destruct (N.ltb_spec c 0x110000); [|done].
  intros [= <-]. cbn [app]. rewrite utf8_decode_4 by lia.
  f_equal. f_equal. lia.
Qed.

(** Encoding a text and decoding the bytes again gives the same text. *)
Lemma utf8_decode_encode (s : pystr) (bs : pybytes) :
  utf8_encode s = Some bs → utf8_decode bs = Some s.
Proof.
  revert bs. induction s as [|c r IH]; intros bs; simpl.
  { by intros [= <-]. }
  destruct (utf8_encode_char c) as [cs|] eqn:Ec; [|done]. simpl.
  destruct (utf8_encode r) as [rs|] eqn:Er; [|done]. simpl.
  intros [= <-]. rewrite (utf8_decode_encode_char c cs rs Ec).
  by rewrite (IH rs eq_refl).
Qed.

Example utf8_decode_ascii :
  utf8_decode (bytes "already-bytes") = Some (text "already-bytes").
Proof. reflexivity. Qed.

(** ** Splitting and joining *)

Section split_properties.
Context {A : Type} `{EqDecision A}.
Implicit Types (sep s seg : list A) (segs : list (list A)).

Lemma starts_with_prefix s sep :
  starts_with s sep = true ↔ ∃ post, s = sep ++ post.
Proof.
  revert s. induction sep as [|p sep IH]; intros s.
  { destruct s; simpl; split; eauto. }
  destruct s as [|c s]; simpl.
  { split; [done|]. by intros [post ?]. }
  rewrite andb_true_iff, bool_decide_eq_true, IH. split.
  - intros [-> [post ->]]. eauto.
  - intros [post [= -> ->]]. eauto.
Qed.

Lemma split_on_not_nil sep k s : split_on sep k s ≠ [].
Proof.
  revert k. induction s as [|c s IH]; intros k; cbn [split_on]; [done|].
  destruct k; [|done].
  destruct (starts_with (c :: s) sep); [done|].
  by destruct (split_on sep 0 s).
Qed.

Lemma join_cons sep seg segs :
  segs ≠ [] → join sep (seg :: segs) = seg ++ sep ++ join sep segs.
Proof. by destruct segs. Qed.

Lemma join_cons_head sep c seg segs :
  join sep ((c :: seg) :: segs) = c :: join sep (seg :: segs).
Proof. by destruct segs. Qed.

(** Joining the segments with the separator gives the text back: nothing is
    trimmed and no segment, empty or not, is dropped. *)
Lemma join_split_on sep k s :
  sep ≠ [] → join sep (split_on sep k s) = drop k s.
Proof.
  intros Hsep. revert k. induction s as [|c s IH]; intros k.
  { by destruct k. }
  destruct k as [|k]; [|apply IH].
  cbn [split_on drop].
  destruct (starts_with (c :: s) sep) eqn:Hpre.
  - apply starts_with_prefix in Hpre as [post Hpost].
    rewrite join_cons by apply split_on_not_nil. rewrite IH.
    destruct sep as [|p sep]; [done|]. simplify_eq/=.
    by rewrite Nat.sub_0_r, drop_app_length.
  - specialize (IH 0%nat). rewrite drop_0 in IH.
    destruct (split_on sep 0 s) as [|seg segs] eqn:Hs.
    { by apply split_on_not_nil in Hs. }
    by rewrite join_cons_head, IH.
Qed.

Lemma join_split sep s : sep ≠ [] → join sep (split sep s) = s.
Proof. intros. unfold split. by rewrite join_split_on, drop_0. Qed.

(** The first segment is a prefix of the text that is split. *)
Lemma split_on_head sep s seg segs :
  split_on sep 0 s = seg :: segs → ∃ post, s = seg ++ post.
Proof.
  revert seg segs. induction s as [|c s IH]; intros seg segs; cbn [split_on].
  { intros [= <- <-]. by exists []. }
  destruct (starts_with (c :: s) sep).
  { intros [= <- <-]. by eexists. }
  destruct (split_on sep 0 s) as [|seg' segs'] eqn:Hs.
  { by apply split_on_not_nil in Hs. }
  intros [= <- <-]. destruct (IH _ _ eq_refl) as [post ->]. by exists post.
Qed.

(** No segment contains the separator. *)
Lemma split_on_no_separator sep k s seg pre post :
  sep ≠ [] → seg ∈ split_on sep k s → seg ≠ pre ++ sep ++ post.
Proof.
  intros Hsep. revert k seg pre. induction s as [|c s IH]; intros k seg pre.
  { simpl. intros ->%list_elem_of_singleton Heq.
    symmetry in Heq. apply app_eq_nil in Heq as [_ [? _]%app_eq_nil]. done. }
  destruct k as [|k]; [|apply IH].
  cbn [split_on]. destruct (starts_with (c :: s) sep) eqn:Hpre.
  - intros [->|Hin]%elem_of_cons; [|by eapply IH].
    intros Heq. symmetry in Heq.
    apply app_eq_nil in Heq as [_ [? _]%app_eq_nil]. done.
  - destruct (split_on sep 0 s) as [|seg' segs'] eqn:Hs.
    { by apply split_on_not_nil in Hs. }
    intros [->|Hin]%elem_of_cons.
    + destruct pre as [|p pre]; simpl.
      * intros Heq. destruct (split_on_head _ _ _ _ Hs) as [rest ->].
        assert (starts_with (c :: seg' ++ rest) sep = true) as Habs; [|congruence].
        apply starts_with_prefix. exists (post ++ rest).
        rewrite app_comm_cons, Heq. by rewrite <-!app_assoc.
      * intros [= <- Heq]. revert Heq. eapply (IH 0%nat). rewrite Hs. left.
    + eapply (IH 0%nat). rewrite Hs. by right.
Qed.
End split_properties.

(** ** The wrapper [Field.deserialize] *)

Lemma Field_deserialize_no_validators _deserialize v :
  v ≠ VNone →
  Field_deserialize _deserialize Field__validate v = _deserialize v.
Proof.
  intros Hv. unfold Field_deserialize, Field__validate.
  destruct v; try done; by destruct (_deserialize _).
Qed.

Lemma deserialize_None name f :
  deserialize name f VNone = Raise (make_error "Field may not be null.").
Proof. by destruct f. Qed.

Lemma deserialize_String name v :
  v ≠ VNone → deserialize name String v = String__deserialize v.
Proof. apply Field_deserialize_no_validators. Qed.

Lemma deserialize_Integer name v :
  v ≠ VNone → deserialize name Integer v = Integer__deserialize v.
Proof. apply Field_deserialize_no_validators. Qed.

Lemma deserialize_Label name v :
  v ≠ VNone → deserialize name Label v = Label__deserialize v.
Proof. apply Field_deserialize_no_validators. Qed.

Lemma deserialize_List name inner v :
  v ≠ VNone →
  deserialize name (List inner) v
  = List__deserialize (deserialize name inner) v.
Proof. apply Field_deserialize_no_validators. Qed.

Lemma deserialize_StringList name inner delimiter v :
  v ≠ VNone →
  deserialize name (StringList inner delimiter) v
  = StringList__deserialize delimiter
      (List__deserialize (deserialize name inner)) v.
Proof. apply Field_deserialize_no_validators. Qed.

(** ** The element loop of [List] *)

Section List_loop.
Variable inner : value → result value.

(** When every element converts, the outputs are appended in order. *)
Lemma List_loop_all_ok idx items acc errors ys :
  Forall2 (λ x y, inner x = Ok y) items ys →
  List_loop inner idx items acc errors = Ok (acc ++ ys, errors).
Proof.
  intros Hall. revert idx acc.
  induction Hall as [|x y items ys Hx _ IH]; intros idx acc; simpl.
  { by rewrite app_nil_r. }
  rewrite Hx, IH. by rewrite <-app_assoc.
Qed.

(** An exception of an element that is not a [ValidationError] leaves the
    loop at once. *)
Lemma List_loop_propagates idx pre x post acc errors e :
  Forall (λ y, ∀ e', inner y = Raise e' → is_ValidationError e' = true) pre →
  inner x = Raise e → is_ValidationError e = false →
  List_loop inner idx (pre ++ x :: post) acc errors = Raise e.
Proof.
  intros Hpre Hx He. revert idx acc errors.
  induction Hpre as [|y pre Hy _ IH]; intros idx acc errors; simpl.
  { by rewrite Hx, He. }
  destruct (inner y) as [o|e'] eqn:Ey; [apply IH|].
  rewrite (Hy e' eq_refl). apply IH.
Qed.

(** When the elements fail with [ValidationError]s only, the loop ends and
    has recorded the messages of exactly the failing elements, each under
    its index. *)
Lemma List_loop_validation idx items acc errors :
  (∀ x e, x ∈ items → inner x = Raise e → is_ValidationError e = true) →
  ∃ acc' errors',
    List_loop inner idx items acc errors = Ok (acc ++ acc', errors ++ errors')
    ∧ ∀ i m, (i, m) ∈ errors' ↔
        ∃ j x e, i = (idx + j)%nat ∧ items !! j = Some x
                 ∧ inner x = Raise e ∧ exn_messages e = m.
Proof.
  revert idx acc errors.
  induction items as [|each rest IH]; intros idx acc errors Hve.
  { exists [], []. rewrite !app_nil_r. split; [done|].
    intros i m. split; [by intros ?%elem_of_nil|].
    by intros (j & x & e & _ & ? & _). }
  assert (Hrest : ∀ x e, x ∈ rest → inner x = Raise e →
                         is_ValidationError e = true).
  { intros x e Hin. apply Hve. by right. }
  simpl. destruct (inner each) as [y|e] eqn:Ee.
  - destruct (IH (S idx) (acc ++ [y]) errors Hrest)
      as (acc' & errors' & -> & Hmem).
    exists (y :: acc'), errors'. split; [by rewrite <-app_assoc|].
    intros i m. rewrite Hmem. split.
    + intros (j & x & e & -> & Hj & Hx & Hm).
      exists (S j), x, e. split_and!; [lia|done..].
    + intros (j & x & e & -> & Hj & Hx & Hm).
      destruct j as [|j]; simpl in Hj; [injection Hj as <-; congruence|].
      exists j, x, e. split_and!; [lia|done..].
  - rewrite (Hve each e) by (done || left).
    destruct (IH (S idx) (acc ++ option_list (exn_valid_data e))
                (errors ++ [(idx, exn_messages e)]) Hrest)
      as (acc' & errors' & -> & Hmem).
    exists (option_list (exn_valid_data e) ++ acc'),
           ((idx, exn_messages e) :: errors').
    split; [by rewrite <-!app_assoc|].
    intros i m. rewrite elem_of_cons, Hmem. split.
    + intros [[= -> ->]|(j & x & e' & -> & Hj & Hx & Hm)].
      * exists 0%nat, each, e. split_and!; [lia|done..].
      * exists (S j), x, e'. split_and!; [lia|done..].
    + intros (j & x & e' & -> & Hj & Hx & Hm).
      destruct j as [|j]; simpl in Hj.
      * left. injection Hj as <-. rewrite Ee in Hx. injection Hx as <-.
        subst m. f_equal. lia.
      * right. exists j, x, e'. split_and!; [lia|done..].
Qed.

End List_loop.

(** ** List *)

Lemma List_deserialize_items name inner items :
  deserialize name (List inner) (VList items)
  = '(acc, errors) ← List_loop (deserialize name inner) 0 items [] [];
    match errors with
    | [] => Ok (VList acc)
    | _ => Raise (ValidationError (IndexedMessages errors) (Some (VList acc)))
    end.
Proof. by rewrite deserialize_List. Qed.

(** When every element converts, [List] returns the outputs, item by item
    and in the order of the input. *)
Lemma List_deserialize_all_ok name inner items ys :
  Forall2 (λ x y, deserialize name inner x = Ok y) items ys →
  deserialize name (List inner) (VList items) = Ok (VList ys).
Proof.
  intros Hall. rewrite List_deserialize_items.
  by rewrite (List_loop_all_ok _ 0 items [] [] ys Hall).
Qed.

(** C7, amended.  [List.deserialize] of a list applies the element field's
    [deserialize] to the items in order: when all succeed the outputs come
    back at the indices of their inputs; when elements fail, and fail with
    [ValidationError]s only, the whole call fails with a [ValidationError]
    whose messages are indexed by exactly the positions of the failing
    elements, and nothing is returned; an element exception that is not a
    [ValidationError] leaves the call unchanged, without an index. *)
Theorem List_deserialize_elements name inner items :
  (∀ ys, Forall2 (λ x y, deserialize name inner x = Ok y) items ys →
         deserialize name (List inner) (VList items) = Ok (VList ys))
  ∧ ((∀ x e, x ∈ items → deserialize name inner x = Raise e →
             is_ValidationError e = true) →
     (∃ x e, x ∈ items ∧ deserialize name inner x = Raise e) →
     ∃ errors partial,
       deserialize name (List inner) (VList items)
       = Raise (ValidationError (IndexedMessages errors)
                                (Some (VList partial)))
       ∧ ∀ i m, (i, m) ∈ errors ↔
           ∃ x e, items !! i = Some x
                  ∧ deserialize name inner x = Raise e
                  ∧ exn_messages e = m)
  ∧ (∀ pre x post e,
       items = pre ++ x :: post →
       Forall (λ y, ∀ e', deserialize name inner y = Raise e' →
                          is_ValidationError e' = true) pre →
       deserialize name inner x = Raise e →
       is_ValidationError e = false →
       deserialize name (List inner) (VList items) = Raise e).
Proof.
  split_and!.
  - intros ys. apply List_deserialize_all_ok.
  - intros Hve (x & e & Hin & Hx). rewrite List_deserialize_items.
    destruct (List_loop_validation (deserialize name inner) 0 items [] [] Hve)
      as (acc' & errors' & Hloop & Hmem).
    rewrite Hloop. simpl.
    assert (∀ i m, (i, m) ∈ errors' ↔
              ∃ x e, items !! i = Some x
                     ∧ deserialize name inner x = Raise e
                     ∧ exn_messages e = m) as Hmem'.
    { intros i m. rewrite Hmem. split.
      - intros (j & x' & e' & -> & ?). by exists x', e'.
      - intros (x' & e' & ?). by exists i, x', e'. }
    destruct errors' as [|r errors'].
    + apply list_elem_of_lookup in Hin as [i Hi].
      assert ((i, exn_messages e) ∈ @nil (nat * messages)) as Habs.
      { apply Hmem'. by exists x, e. }
      by apply elem_of_nil in Habs.
    + by exists (r :: errors'), acc'.
  - intros pre x post e -> Hpre Hx He. rewrite List_deserialize_items.
    by rewrite (List_loop_propagates _ 0 pre x post [] [] e Hpre Hx He).
Qed.

Example List_Integer_second_element_fails :
  deserialize None (List Integer)
    (VList [VStr (text "1"); VStr (text "x"); VStr (text "3")])
  = Raise (ValidationError
             (IndexedMessages [(1%nat, Messages ["Not a valid integer."%string])])
             (Some (VList [VInt 1; VInt 3]))).
Proof. reflexivity. Qed.

Lemma List_deserialize_elements_witness :
  let items := [VStr (text "1"); VStr (text "x"); VStr (text "3")] in
  (∀ x e, x ∈ items → deserialize None Integer x = Raise e →
          is_ValidationError e = true)
  ∧ (∃ x e, x ∈ items ∧ deserialize None Integer x = Raise e)
  ∧ ∃ errors partial,
      deserialize None (List Integer) (VList items)
      = Raise (ValidationError (IndexedMessages errors)
                               (Some (VList partial)))
      ∧ ∀ i m, (i, m) ∈ errors ↔
          ∃ x e, items !! i = Some x
                 ∧ deserialize None Integer x = Raise e
                 ∧ exn_messages e = m.
Proof.
  intros items.
  assert (H1 : ∀ x e, x ∈ items → deserialize None Integer x = Raise e →
                      is_ValidationError e = true).
  { intros x e Hin. unfold items in Hin.
    repeat (apply elem_of_cons in Hin as [->|Hin]);
      [| |  |by apply elem_of_nil in Hin];
      vm_compute; intros H; by inversion H. }
  assert (H2 : ∃ x e, x ∈ items ∧ deserialize None Integer x = Raise e).
  { exists (VStr (text "x")), (make_error "Not a valid integer.").
    split; [|reflexivity]. unfold items. right. left. }
  split; [exact H1|]. split; [exact H2|].
  exact (proj1 (proj2 (List_deserialize_elements None Integer items)) H1 H2).
Defined.

(** C7 as stated fails where an element raises something else than a
    [ValidationError]: [Label] on an integer raises [AttributeError], and
    [List] lets it through. *)
Lemma List_Label_element_counterexample :
  deserialize None Label (VInt 5) = Raise AttributeError
  ∧ deserialize None (List Label) (VList [VInt 5]) = Raise AttributeError
  ∧ is_ValidationError AttributeError = false.
Proof. done. Qed.

(** ** StringList *)

Lemma StringList_deserialize_list name inner delimiter items :
  deserialize name (StringList inner delimiter) (VList items)
  = deserialize name (List inner) (VList items).
Proof. by rewrite deserialize_StringList, deserialize_List. Qed.

Lemma StringList_deserialize_text name inner sep s :
  sep ≠ [] →
  deserialize name (StringList inner (VStr sep)) (VStr s)
  = deserialize name (List inner) (VList (VStr <$> split sep s)).
Proof.
  intros Hsep. rewrite deserialize_StringList, deserialize_List by done.
  by destruct sep.
Qed.



Example StringList_comma :
  deserialize None (new_StringList String ∅) (VStr (text "a,b,c"))
  = Ok (VList [VStr (text "a"); VStr (text "b"); VStr (text "c")]).
Proof. reflexivity. Qed.

Example StringList_semicolon :
  deserialize None
    (new_StringList String {[ "delimiter"%string := VStr (text ";") ]})
    (VStr (text "a;b"))
  = Ok (VList [VStr (text "a"); VStr (text "b")]).
Proof. reflexivity. Qed.

Example StringList_list_input :
  deserialize None (new_StringList String ∅)
    (VList [VStr (text "x"); VStr (text "y")])
  = Ok (VList [VStr (text "x"); VStr (text "y")]).
Proof. reflexivity. Qed.

Example StringList_keeps_empty_segments :
  deserialize None (new_StringList String ∅) (VStr (text ",a,, b,"))
  = Ok (VList [VStr []; VStr (text "a"); VStr []; VStr (text " b"); VStr []]).
Proof. reflexivity. Qed.

(** C6 as stated fails on an integer: it has no [split] method and the
    [AttributeError] of the call is not a [ValidationError]. *)
Lemma StringList_integer_counterexample :
  deserialize None (StringList String (VStr (text ","))) (VInt 5)
  = Raise AttributeError
  ∧ is_ValidationError AttributeError = false.
Proof. done. Qed.

(** C6, amended.  A [StringList] with a text delimiter fails on every raw
    input that is neither a list nor a string: with the [ValidationError] of
    [Field.deserialize] when the input is [None], and otherwise with the
    exception of the call [value.split(delimiter)], a [TypeError] for a byte
    sequence and an [AttributeError] for a value without the method. *)
Theorem StringList_deserialize_neither name inner sep v :
  (∀ l, v ≠ VList l) → (∀ s, v ≠ VStr s) →
  deserialize name (StringList inner (VStr sep)) v
  = Raise match v with
          | VNone => make_error "Field may not be null."
          | VBytes _ => TypeError
          | _ => AttributeError
          end.
Proof.
  intros Hl Hs. destruct v as [| | | s | | l | |]; try done.
  - by destruct (Hs s).
  - by destruct (Hl l).
Qed.

Lemma StringList_deserialize_neither_witness :
  (∀ l, VTuple [VStr (text "a")] ≠ VList l)
  ∧ (∀ s, VTuple [VStr (text "a")] ≠ VStr s)
  ∧ deserialize None (StringList String (VStr (text ",")))
      (VTuple [VStr (text "a")])
    = Raise AttributeError.
Proof.
  split; [done|]. split; [done|].
  by apply (StringList_deserialize_neither None String (text ",")).
Defined.

(** ** Label *)

Lemma utf8_encode_scalar_values (s : pystr) :
  Forall is_scalar_value s → is_Some (utf8_encode s).
Proof.
  induction 1 as [|c s Hc _ [bs IH]]; simpl; [by eexists|].
  rewrite IH. unfold is_scalar_value in Hc.
  assert (is_Some (utf8_encode_char c)) as [cs ->]; [|by eexists].
  unfold utf8_encode_char.
  repeat match goal with
    | |- context [N.ltb ?a ?b] => destruct (N.ltb_spec a b)
    | |- context [N.leb ?a ?b] => destruct (N.leb_spec a b)
    end; simpl; (by eexists) || lia.
Qed.

(** C4.  [Label.deserialize] returns a byte sequence unchanged, whatever
    its length and content, and returns the UTF-8 encoding of a text; every
    text of Unicode scalar values, the empty one included, has one. *)
Theorem Label_deserialize_spec name :
  (∀ b, deserialize name Label (VBytes b) = Ok (VBytes b))
  ∧ (∀ s b, utf8_encode s = Some b →
            deserialize name Label (VStr s) = Ok (VBytes b))
  ∧ (∀ s, Forall is_scalar_value s →
          ∃ b, utf8_encode s = Some b
               ∧ deserialize name Label (VStr s) = Ok (VBytes b))
  ∧ deserialize name Label (VStr []) = Ok (VBytes [])
  ∧ deserialize name Label (VBytes (bytes "already-bytes"))
    = Ok (VBytes (bytes "already-bytes"))
  ∧ deserialize name Label (VStr (text "text")) = Ok (VBytes (bytes "text")).
Proof.
  assert (Htext : ∀ s b, utf8_encode s = Some b →
                         deserialize name Label (VStr s) = Ok (VBytes b)).
  { intros s b Hb. rewrite deserialize_Label by done. simpl. by rewrite Hb. }
  split_and!; try done.
  intros s Hs. destruct (utf8_encode_scalar_values s Hs) as [b Hb]. eauto.
Qed.

Lemma Label_deserialize_spec_witness :
  utf8_encode [0x20AC] = Some (byte_of <$> [0xE2; 0x82; 0xAC])
  ∧ deserialize None Label (VStr [0x20AC])
    = Ok (VBytes (byte_of <$> [0xE2; 0x82; 0xAC])).
Proof.
  split; [reflexivity|].
  by apply (Label_deserialize_spec None).
Defined.

(** C5.  [Label.serialize] of a byte sequence that is the UTF-8 encoding
    of a text returns that text; of a byte sequence that is the encoding of
    no text it fails with [UnicodeDecodeError], which is not a
    [ValidationError]. *)
Theorem Label_serialize_spec py_str b :
  (∀ s, utf8_encode s = Some b →
        serialize py_str Label (VBytes b) = Ok (VStr s))
  ∧ ((∀ s, utf8_encode s ≠ Some b) →
     serialize py_str Label (VBytes b) = Raise UnicodeDecodeError
     ∧ is_ValidationError UnicodeDecodeError = false).
Proof.
  split.
  - intros s Hs%utf8_decode_encode. simpl. unfold Label__serialize. simpl.
    by rewrite Hs.
  - intros Hnone. split; [|done]. simpl. unfold Label__serialize. simpl.
    destruct (utf8_decode b) as [s|] eqn:Hs; [|done].
    by apply utf8_encode_decode, Hnone in Hs.
Qed.

Example Label_serialize_text py_str :
  serialize py_str Label (VBytes (bytes "text")) = Ok (VStr (text "text")).
Proof. reflexivity. Qed.

Example Label_serialize_invalid py_str :
  serialize py_str Label (VBytes [byte_of 0xFF]) = Raise UnicodeDecodeError.
Proof. reflexivity. Qed.

Lemma Label_serialize_spec_witness :
  utf8_encode (text "abc") = Some (bytes "abc")
  ∧ serialize (λ _, []) Label (VBytes (bytes "abc")) = Ok (VStr (text "abc")).
Proof.
  split; [reflexivity|].
  by apply (Label_serialize_spec (λ _, []) (bytes "abc")).
Defined.

Lemma Label_deserialize_bytes name x y :
  deserialize name Label x = Ok y → ∃ b, y = VBytes b.
Proof.
  destruct x as [| | | s | b | | |]; try done.
  - rewrite deserialize_Label by done. simpl.
    destruct (utf8_encode s) as [b|]; [|done]. intros [= <-]. eauto.
  - intros [= <-]. eauto.
Qed.

(** C10.  [Label.deserialize] is idempotent where it succeeds: its output
    is a byte sequence, and byte sequences pass through unchanged. *)
Theorem Label_deserialize_idempotent name x y :
  deserialize name Label x = Ok y →
  deserialize name Label y = Ok y.
Proof. intros [b ->]%Label_deserialize_bytes. done. Qed.

Lemma Label_deserialize_idempotent_witness :
  deserialize None Label (VStr (text "text")) = Ok (VBytes (bytes "text"))
  ∧ deserialize None Label (VBytes (bytes "text")) = Ok (VBytes (bytes "text")).
Proof.
  split; [reflexivity|].
  by apply (Label_deserialize_idempotent None (VStr (text "text"))).
Defined.

(** ** Integer and PositiveInteger *)

Section strip_properties.
Context {A : Type} (is_space : A → bool).

Lemma lstrip_no_space (s : list A) :
  Forall (λ c, is_space c = false) s → lstrip is_space s = s.
Proof. destruct 1 as [|c s Hc _]; simpl; [done|by rewrite Hc]. Qed.

Lemma strip_no_space (s : list A) :
  Forall (λ c, is_space c = false) s → strip is_space s = s.
Proof.
  intros Hs. unfold strip. rewrite (lstrip_no_space s Hs).
  rewrite lstrip_no_space by by apply Forall_reverse.
  apply reverse_involutive.
Qed.

Lemma lstrip_spaces ws s :
  Forall (λ c, is_space c = true) ws →
  lstrip is_space (ws ++ s) = lstrip is_space s.
Proof. induction 1 as [|c ws Hc _ IH]; simpl; [done|by rewrite Hc]. Qed.

Lemma lstrip_all_space s :
  Forall (λ c, is_space c = true) s → lstrip is_space s = [].
Proof. induction 1 as [|c ws Hc _ IH]; simpl; [done|by rewrite Hc]. Qed.

Lemma lstrip_cases s :
  (Forall (λ c, is_space c = true) s ∧ lstrip is_space s = [])
  ∨ (∃ sp c r, s = sp ++ c :: r ∧ Forall (λ c, is_space c = true) sp
               ∧ is_space c = false ∧ lstrip is_space s = c :: r).
Proof.
  induction s as [|c s IH]; simpl; [by left|].
  destruct (is_space c) eqn:Ec.
  - destruct IH as [[Hs ->]|(sp & c' & r & -> & Hsp & Hc' & ->)].
    + left. split; [by constructor|done].
    + right. exists (c :: sp), c', r. split_and!; [done|by constructor|done..].
  - right. by exists [], c, s.
Qed.

(** What [lstrip] removes is white space. *)
Lemma lstrip_decompose s :
  ∃ ws, s = ws ++ lstrip is_space s ∧ Forall (λ c, is_space c = true) ws.
Proof.
  destruct (lstrip_cases s) as [[Hs ->]|(sp & c & r & -> & Hsp & Hc & ->)].
  - exists s. by rewrite app_nil_r.
  - by exists sp.
Qed.

(** What [strip] removes, at either end, is white space. *)
Lemma strip_decompose s :
  ∃ ws1 ws2, s = ws1 ++ strip is_space s ++ ws2
             ∧ Forall (λ c, is_space c = true) ws1
             ∧ Forall (λ c, is_space c = true) ws2.
Proof.
  destruct (lstrip_decompose s) as (ws1 & Hs & Hws1).
  destruct (lstrip_decompose (reverse (lstrip is_space s)))
    as (ws2 & Hr & Hws2).
  exists ws1, (reverse ws2). split_and!; [|done|by apply Forall_reverse].
  unfold strip. rewrite <-reverse_app, <-Hr, reverse_involutive. done.
Qed.

(** White space at the ends of a text does not change what [strip]
    returns. *)
Lemma strip_around ws1 s ws2 :
  Forall (λ c, is_space c = true) ws1 → Forall (λ c, is_space c = true) ws2 →
  strip is_space (ws1 ++ s ++ ws2) = strip is_space s.
Proof.
  intros H1 H2. unfold strip. rewrite (lstrip_spaces ws1) by done.
  destruct (lstrip_cases s) as [[Hs ->]|(sp & c & r & -> & Hsp & Hc & ->)].
  - by rewrite (lstrip_all_space (s ++ ws2)) by by apply Forall_app.
  - rewrite <-app_assoc, (lstrip_spaces sp) by done.
    rewrite <-app_comm_cons. simpl. rewrite Hc.
    rewrite app_comm_cons, reverse_app.
    by rewrite (lstrip_spaces (reverse ws2)) by by apply Forall_reverse.
Qed.

(** [strip] removes the white space around a text without white space. *)
Lemma strip_spaces ws1 s ws2 :
  Forall (λ c, is_space c = true) ws1 → Forall (λ c, is_space c = true) ws2 →
  Forall (λ c, is_space c = false) s →
  strip is_space (ws1 ++ s ++ ws2) = s.
Proof.
  intros H1 H2 Hs. rewrite strip_around by done. by apply strip_no_space.
Qed.
End strip_properties.

(** *** Digits *)

Lemma digit_value_zero c d :
  digit_value c = Some d →
  ∃ zero, zero ∈ decimal_zeros ∧ zero ≤ c < zero + 10 ∧ d = Z.of_N (c - zero).
Proof.
  unfold digit_value.
  destruct (List.find _ decimal_zeros) as [zero|] eqn:E; [|done].
  intros [= <-]. apply List.find_some in E as [Hin Hc].
  exists zero. split; [by apply list_elem_of_In|]. split; [|done].
  apply andb_true_iff in Hc as [?%N.leb_le ?%N.ltb_lt]. lia.
Qed.

Lemma digit_value_bound c d : digit_value c = Some d → (0 ≤ d < 10)%Z.
Proof. intros (zero & _ & Hc & ->)%digit_value_zero. lia. Qed.

(** The digits of ASCII. *)
Lemma digit_value_decimal d : d < 10 → digit_value (48 + d) = Some (Z.of_N d).
Proof.
  intros Hd.
  assert (d = 0 ∨ d = 1 ∨ d = 2 ∨ d = 3 ∨ d = 4 ∨ d = 5 ∨ d = 6 ∨ d = 7
          ∨ d = 8 ∨ d = 9) as [->|[->|[->|[->|[->|[->|[->|[->|[->| ->]]]]]]]]]
    by lia; reflexivity.
Qed.

(** White space is no digit, no sign and no underscore. *)
Lemma int_isspace_not_numeral c :
  int_isspace c = true → digit_value c = None ∧ c ≠ 43 ∧ c ≠ 45 ∧ c ≠ 95.
Proof.
  unfold int_isspace.
  rewrite !orb_true_iff, !andb_true_iff, !N.leb_le, !N.eqb_eq. intros Hc.
  assert (c ∈ [0x09; 0x0A; 0x0B; 0x0C; 0x0D; 0x20; 0x85; 0xA0; 0x1680;
               0x2000; 0x2001; 0x2002; 0x2003; 0x2004; 0x2005; 0x2006;
               0x2007; 0x2008; 0x2009; 0x200A; 0x2028; 0x2029; 0x202F;
               0x205F; 0x3000]) as Hin.
  { rewrite !elem_of_cons. lia. }
  clear Hc. revert c Hin. apply Forall_forall.
  repeat (constructor; [by vm_compute|]). constructor.
Qed.

Lemma ascii_isspace_int_isspace c :
  ascii_isspace c = true → int_isspace c = true.
Proof.
  unfold int_isspace, ascii_isspace. by destruct (_ && _), (c =? 0x20).
Qed.

Lemma ascii_isspace_not_numeral c :
  ascii_isspace c = true → digit_value c = None ∧ c ≠ 43 ∧ c ≠ 45 ∧ c ≠ 95.
Proof. intros H. by apply int_isspace_not_numeral, ascii_isspace_int_isspace. Qed.

(** *** The parser and the numerals *)

Lemma parse_digits_grouped body ds :
  grouped_digits body ds → ∀ acc after_digit,
  parse_digits acc after_digit body
  = Some (foldl (λ acc d, 10 * acc + d)%Z acc ds).
Proof.
  induction 1 as [c d Hd|c d body ds Hd _ IH|c d body ds Hd _ IH];
    intros acc after_digit; cbn [parse_digits]; rewrite Hd.
  - done.
  - apply IH.
  - cbn [parse_digits]. change (digit_value 95) with (@None Z). apply IH.
Qed.

Lemma parse_digits_Some s : ∀ acc after_digit z,
  parse_digits acc after_digit s = Some z →
  match s with
  | [] => after_digit = true ∧ z = acc
  | _ => ∃ body ds, grouped_digits body ds
           ∧ z = foldl (λ acc d, 10 * acc + d)%Z acc ds
           ∧ (s = body ∨ (after_digit = true ∧ s = 95 :: body))
  end.
Proof.
  induction s as [|c r IH]; intros acc after_digit z; cbn [parse_digits].
  { by destruct after_digit; intros [= ->]. }
  destruct (digit_value c) as [d|] eqn:Hd.
  - intros Hr. apply IH in Hr. destruct r as [|c' r'].
    + destruct Hr as [_ ->]. exists [c], [d]. split_and!; [by constructor|done|by left].
    + destruct Hr as (body & ds & Hg & -> & [Hr|[_ Hr]]).
      * exists (c :: body), (d :: ds). rewrite Hr.
        split_and!; [by constructor|done|by left].
      * exists (c :: 95 :: body), (d :: ds). rewrite Hr.
        split_and!; [by apply digits_underscore|done|by left].
  - destruct (N.eqb_spec c 95) as [->|]; [|done].
    destruct after_digit; [|done]. simpl. intros Hr. apply IH in Hr.
    destruct r as [|c' r']; [by destruct Hr|].
    destruct Hr as (body & ds & Hg & -> & [Hr|[? _]]); [|done].
    exists body, ds. split_and!; [done..|]. right. by rewrite Hr.
Qed.

Lemma grouped_digits_count body ds :
  grouped_digits body ds → digit_count body = length ds.
Proof.
  unfold digit_count.
  induction 1 as [c d Hd|c d body ds Hd _ IH|c d body ds Hd _ IH].
  - rewrite filter_cons_True by by rewrite Hd. done.
  - rewrite filter_cons_True by by rewrite Hd. simpl. by rewrite IH.
  - rewrite filter_cons_True by by rewrite Hd.
    rewrite filter_cons_False by (intros [? ?]; done). simpl. by rewrite IH.
Qed.

(** The characters of a numeral. *)
Lemma grouped_digits_chars body ds :
  grouped_digits body ds →
  Forall (λ c, is_Some (digit_value c) ∨ c = 95) body
  ∧ ∃ c r, body = c :: r ∧ is_Some (digit_value c).
Proof.
  induction 1 as [c d Hd|c d body ds Hd _ [IH _]|c d body ds Hd _ [IH _]];
    (split; [|exists c; eexists; split; [done|by rewrite Hd]]);
    repeat constructor; try done; by left; rewrite Hd.
Qed.

Lemma parse_unsigned_spec s z :
  parse_unsigned s = Some z
  ↔ ∃ ds, grouped_digits s ds ∧ (length ds ≤ int_max_str_digits)%nat
          ∧ z = digits_value ds.
Proof.
  unfold parse_unsigned. split.
  - destruct (Nat.leb_spec (digit_count s) int_max_str_digits) as [Hn|];
      [|done].
    intros Hp. apply parse_digits_Some in Hp. destruct s as [|c r].
    { by destruct Hp. }
    destruct Hp as (body & ds & Hg & -> & [<-|[? _]]); [|done].
    exists ds. split_and!; [done| |done].
    by rewrite <-(grouped_digits_count _ _ Hg).
  - intros (ds & Hg & Hn & ->).
    rewrite (grouped_digits_count _ _ Hg).
    rewrite (proj2 (Nat.leb_le _ _) Hn). by apply parse_digits_grouped.
Qed.

Lemma parse_int_unsigned s :
  (∀ r, s ≠ 45 :: r) → (∀ r, s ≠ 43 :: r) → parse_int s = parse_unsigned s.
Proof.
  intros H45 H43. destruct s as [|c r]; [done|].
  destruct (N.eq_dec c 45) as [->|]; [by destruct (H45 r)|].
  destruct (N.eq_dec c 43) as [->|]; [by destruct (H43 r)|].
  unfold parse_int. destruct c as [|p]; [done|].
  repeat (destruct p as [p|p|]; try done).
Qed.

(** [parse_int] reads the numerals, and nothing else. *)
Lemma parse_int_spec s z : parse_int s = Some z ↔ signed_numeral s z.
Proof.
  split.
  - destruct s as [|c r].
    { intros (ds & Hg & _)%parse_unsigned_spec. inversion Hg. }
    destruct (N.eq_dec c 45) as [->|H45]; [|destruct (N.eq_dec c 43) as [->|H43]].
    + change (parse_int (45 :: r)) with (Z.opp <$> parse_unsigned r).
      destruct (parse_unsigned r) as [z'|] eqn:E; [|done]. intros [= <-].
      apply parse_unsigned_spec in E as (ds & Hg & Hn & ->).
      by apply numeral_minus.
    + change (parse_int (43 :: r)) with (parse_unsigned r).
      intros (ds & Hg & Hn & ->)%parse_unsigned_spec. by apply numeral_plus.
    + rewrite parse_int_unsigned by congruence.
      intros (ds & Hg & Hn & ->)%parse_unsigned_spec. by apply numeral_unsigned.
  - intros [body ds Hg Hn|body ds Hg Hn|body ds Hg Hn].
    + destruct (grouped_digits_chars _ _ Hg) as [_ (c & r & -> & Hc)].
      rewrite parse_int_unsigned.
      * apply parse_unsigned_spec. by exists ds.
      * intros r' [= -> _]. by destruct Hc.
      * intros r' [= -> _]. by destruct Hc.
    + change (parse_int (43 :: body)) with (parse_unsigned body).
      apply parse_unsigned_spec. by exists ds.
    + change (parse_int (45 :: body)) with (Z.opp <$> parse_unsigned body).
      by rewrite (proj2 (parse_unsigned_spec body (digits_value ds)))
        by by exists ds.
Qed.

Lemma signed_numeral_chars s z :
  signed_numeral s z →
  s ≠ [] ∧ Forall (λ c, is_Some (digit_value c) ∨ c = 43 ∨ c = 45 ∨ c = 95) s.
Proof.
  assert (Hg : ∀ body ds, grouped_digits body ds →
    Forall (λ c, is_Some (digit_value c) ∨ c = 43 ∨ c = 45 ∨ c = 95) body).
  { intros body ds [H _]%grouped_digits_chars.
    eapply Forall_impl; [done|]. intros c [?| ->]; auto. }
  intros [body ds H Hn|body ds H Hn|body ds H Hn].
  - split; [|by eapply Hg].
    by destruct (grouped_digits_chars _ _ H) as [_ (c & r & -> & _)].
  - split; [done|]. constructor; [auto|by eapply Hg].
  - split; [done|]. constructor; [auto|by eapply Hg].
Qed.

(** With the white space stripped, [parse_int] reads the texts that are a
    base-10 integer, and nothing else. *)
Lemma parse_int_strip is_space s z :
  (∀ c, is_space c = true →
        digit_value c = None ∧ c ≠ 43 ∧ c ≠ 45 ∧ c ≠ 95) →
  parse_int (strip is_space s) = Some z ↔ base10_integer is_space s z.
Proof.
  intros Hsp. split.
  - intros Hp%parse_int_spec.
    destruct (strip_decompose is_space s) as (ws1 & ws2 & Hs & H1 & H2).
    rewrite Hs. by constructor.
  - intros [ws1 numeral ws2 z' H1 H2 Hn].
    rewrite strip_spaces; [by apply parse_int_spec|done..|].
    destruct (signed_numeral_chars _ _ Hn) as [_ Hc].
    eapply Forall_impl; [done|]. intros c Hc'. simpl in Hc'.
    destruct (is_space c) eqn:E; [|done].
    destruct (Hsp c E) as (Hd & ? & ? & ?).
    destruct Hc' as [[d Hd']|[?|[?|?]]]; congruence.
Qed.

(** [int] reads the integer inputs and the booleans, and nothing else. *)
Lemma py_int_Ok v z :
  py_int v = Ok z
  ↔ integer_input v z ∨ ∃ b : bool, v = VBool b ∧ z = (if b then 1 else 0)%Z.
Proof.
  split.
  - destruct v as [| b | z' | s | b | l | l | [m e|negative|]]; simpl; try done.
    + intros [= <-]. right. by exists b.
    + intros [= <-]. left. constructor.
    + destruct (parse_int _) as [z'|] eqn:E; [|done]. intros [= <-].
      left. constructor.
      by apply (parse_int_strip _ _ _ int_isspace_not_numeral).
    + destruct (parse_int _) as [z'|] eqn:E; [|done]. intros [= <-].
      left. constructor.
      by apply (parse_int_strip _ _ _ ascii_isspace_not_numeral).
    + intros [= <-]. left. constructor.
  - intros [[z'|m e|s z' H|b z' H]|(b & -> & ->)]; simpl; try done.
    + by rewrite (proj2 (parse_int_strip _ _ _ int_isspace_not_numeral) H).
    + by rewrite (proj2 (parse_int_strip _ _ _ ascii_isspace_not_numeral) H).
Qed.

(** [int] raises a [TypeError], a [ValueError] or an [OverflowError]. *)
Lemma py_int_Raise v e :
  py_int v = Raise e →
  (e = OverflowError ∧ ∃ negative, v = VFloat (Infinity negative))
  ∨ ((e = TypeError ∨ e = ValueError)
     ∧ ∀ negative, v ≠ VFloat (Infinity negative)).
Proof.
  destruct v as [| b | z' | s | b | l | l | [m e'|negative|]]; simpl;
    try done; try (intros [= <-]; right; split; [auto|done]).
  - destruct (parse_int _); [done|]. intros [= <-]. right. split; [auto|done].
  - destruct (parse_int _); [done|]. intros [= <-]. right. split; [auto|done].
  - intros [= <-]. left. split; [done|by eexists].
Qed.

Lemma value_None_dec (v : value) : v = VNone ∨ v ≠ VNone.
Proof. destruct v; (by left) || (by right). Qed.

Lemma integer_input_base10 v z :
  integer_input v z
  ↔ base10_input v z ∨ ∃ m e, v = VFloat (Finite m e) ∧ z = truncate m e.
Proof.
  split.
  - intros [z'|m e|s z' H|b z' H];
      [left; by constructor|right; by eexists _, _|left; by constructor..].
  - intros [[z'|s z' H|b z' H]|(m & e & -> & ->)]; by constructor.
Qed.

(** C8.  [Integer.deserialize] fails with a [ValidationError] on every
    input that cannot be parsed as a base-10 integer (that is not an
    integer, and not a text or a byte sequence made of a base-10 numeral
    with white space around it), unless the input is a finite float.  The
    message is that of the null input for [None], that of a number too
    large for an infinite float and that of an invalid integer for every
    other such input, the text ["not-a-number"] among them.  A finite float
    is not refused: it is rounded toward zero. *)
Theorem Integer_deserialize_unparsable name v :
  (∀ z, ¬ base10_input v z) → (∀ m e, v ≠ VFloat (Finite m e)) →
  let e := make_error match v with
                      | VNone => "Field may not be null."
                      | VFloat (Infinity _) => "Number too large."
                      | _ => "Not a valid integer."
                      end in
  deserialize name Integer v = Raise e ∧ is_ValidationError e = true
  ∧ ∀ m e, deserialize name Integer (VFloat (Finite m e))
           = Ok (VInt (truncate m e)).
Proof.
  intros Hbase Hfloat e. subst e.
  split; [|split; [by destruct v as [| | | | | | |[| |]]|done]].
  assert (Hint : ∀ z, ¬ integer_input v z).
  { intros z [H|(m & e & -> & _)]%integer_input_base10;
      [by destruct (Hbase z)|by destruct (Hfloat m e)]. }
  assert (Htext : ∀ v', (∀ z, ¬ integer_input v' z) → (∀ b, v' ≠ VBool b) →
            (∀ negative, v' ≠ VFloat (Infinity negative)) →
            match py_int v' with
            | Ok z => Ok (VInt z)
            | Raise TypeError | Raise ValueError =>
                Raise (make_error "Not a valid integer.")
            | Raise OverflowError => Raise (make_error "Number too large.")
            | Raise e => Raise e
            end = Raise (make_error "Not a valid integer.")).
  { intros v' Hv' Hb Hinf. destruct (py_int v') as [z|e] eqn:E.
    - apply py_int_Ok in E as [E|(b & -> & _)];
        [by destruct (Hv' z)|by destruct (Hb b)].
    - apply py_int_Raise in E as [[_ [negative ->]]|[[-> | ->] _]];
        [by destruct (Hinf negative)|done..]. }
  destruct v as [| b | z | s | b | l | l | [m e|negative|]]; try done.
  - destruct (Hint z). constructor.
  - rewrite deserialize_Integer by done. by apply Htext.
  - rewrite deserialize_Integer by done. by apply Htext.
  - by destruct (Hfloat m e).
Qed.

(** C8 as stated fails on the floats: the float [1.5], that is [3 * 2 ^ -1],
    cannot be parsed as a base-10 integer, and [Integer.deserialize] does
    not fail on it but returns [1]. *)
Lemma Integer_float_counterexample :
  (∀ z, ¬ base10_input (VFloat (Finite 3 (-1))) z)
  ∧ deserialize None Integer (VFloat (Finite 3 (-1))) = Ok (VInt 1)
  ∧ deserialize None Integer (VStr (text "1.5"))
    = Raise (make_error "Not a valid integer.").
Proof. split; [intros z H; inversion H|by split]. Qed.

Example Integer_not_a_number :
  deserialize None Integer (VStr (text "not-a-number"))
  = Raise (make_error "Not a valid integer.").
Proof. reflexivity. Qed.

Example Integer_numerals :
  deserialize None Integer (VStr (text "42")) = Ok (VInt 42)
  ∧ deserialize None Integer (VStr (text " -7 ")) = Ok (VInt (-7))
  ∧ deserialize None Integer (VStr (text "+1_000")) = Ok (VInt 1000)
  ∧ deserialize None Integer (VInt 42) = Ok (VInt 42)
  ∧ deserialize None Integer (VStr (text "0x1F"))
    = Raise (make_error "Not a valid integer.")
  ∧ deserialize None Integer (VStr (text "1.5"))
    = Raise (make_error "Not a valid integer.")
  ∧ deserialize None Integer (VStr [])
    = Raise (make_error "Not a valid integer.")
  ∧ deserialize None Integer (VBool true)
    = Raise (make_error "Not a valid integer.").
Proof. by split_and!. Qed.

Example Integer_conversions :
  deserialize None Integer (VStr [0x664; 0x662]) = Ok (VInt 42)
  ∧ deserialize None Integer (VStr [0x31; 0x5F; 0x662]) = Ok (VInt 12)
  ∧ deserialize None Integer (VStr [0xA0; 0x34; 0x32; 0x2028]) = Ok (VInt 42)
  ∧ deserialize None Integer (VStr [0x1C; 0x34; 0x32])
    = Raise (make_error "Not a valid integer.")
  ∧ deserialize None Integer (VStr (text "1__0"))
    = Raise (make_error "Not a valid integer.")
  ∧ deserialize None Integer (VStr (text "- 1"))
    = Raise (make_error "Not a valid integer.")
  ∧ deserialize None Integer (VBytes (bytes " 4_2 ")) = Ok (VInt 42)
  ∧ deserialize None Integer (VBytes [byte_of 0xD9; byte_of 0xA4])
    = Raise (make_error "Not a valid integer.")
  ∧ deserialize None Integer (VFloat (Finite 3 (-1))) = Ok (VInt 1)
  ∧ deserialize None Integer (VFloat (Finite (-3) (-1))) = Ok (VInt (-1))
  ∧ deserialize None Integer (VFloat (Infinity false))
    = Raise (make_error "Number too large.")
  ∧ deserialize None Integer (VFloat NaN)
    = Raise (make_error "Not a valid integer.")
  ∧ deserialize None Integer (VList [VInt 1])
    = Raise (make_error "Not a valid integer.").
Proof. by split_and!. Qed.

Lemma Integer_deserialize_unparsable_witness :
  (∀ z, ¬ base10_input (VStr (text "not-a-number")) z)
  ∧ (∀ m e, VStr (text "not-a-number") ≠ VFloat (Finite m e))
  ∧ deserialize None Integer (VStr (text "not-a-number"))
    = Raise (make_error "Not a valid integer.").
Proof.
  assert (H : ∀ z, ¬ base10_input (VStr (text "not-a-number")) z).
  { intros z Hz.
    assert (Hp : py_int (VStr (text "not-a-number")) = Ok z).
    { apply py_int_Ok. left. apply integer_input_base10. by left. }
    vm_compute in Hp. discriminate Hp. }
  assert (H' : ∀ m e, VStr (text "not-a-number") ≠ VFloat (Finite m e))
    by done.
  split; [exact H|]. split; [exact H'|].
  exact (proj1 (Integer_deserialize_unparsable None _ H H')).
Defined.

Lemma deserialize_PositiveInteger name v :
  v ≠ VNone →
  deserialize name PositiveInteger v
  = output ← Integer__deserialize v;
    _ ← PositiveInteger__validate name output;
    Ok output.
Proof. by destruct v. Qed.

(** C3.  [PositiveInteger] validation fails on every integer that is zero
    or less, with the error whose message is the name of the field followed
    by [" must be a positive integer."], so [deserialize] fails on every
    input that [Integer] converts to such an integer; ["1"] gives [1]. *)
Theorem PositiveInteger_rejects_non_positive name z :
  (z ≤ 0)%Z →
  let e := InvalidInputData
             (format_name name ++ " must be a positive integer" ++ ".") in
  _validate name PositiveInteger (VInt z) = Raise e
  ∧ is_ValidationError e = true
  ∧ (∀ v, v ≠ VNone → Integer__deserialize v = Ok (VInt z) →
          deserialize name PositiveInteger v = Raise e)
  ∧ deserialize name PositiveInteger (VStr (text "0")) = Raise e
  ∧ deserialize name PositiveInteger (VStr (text "-5")) = Raise e
  ∧ deserialize name PositiveInteger (VStr (text "1")) = Ok (VInt 1).
Proof.
  intros Hz e.
  assert (Hval : _validate name PositiveInteger (VInt z) = Raise e).
  { simpl. unfold PositiveInteger__validate. simpl.
    by rewrite (proj2 (Z.ltb_ge 0 z) Hz). }
  split_and!; try done.
  intros v Hv Hint. rewrite deserialize_PositiveInteger by done.
  rewrite Hint. simpl. simpl in Hval. by rewrite Hval.
Qed.

Lemma PositiveInteger_rejects_non_positive_witness :
  (-5 ≤ 0)%Z
  ∧ _validate (Some "n"%string) PositiveInteger (VInt (-5))
    = Raise (InvalidInputData "n must be a positive integer.").
Proof.
  split; [lia|].
  apply (PositiveInteger_rejects_non_positive (Some "n"%string) (-5)). lia.
Defined.

Example PositiveInteger_accepts_positive name z :
  (0 < z)%Z → deserialize name PositiveInteger (VInt z) = Ok (VInt z).
Proof.
  intros Hz. simpl. unfold PositiveInteger__validate. simpl.
  by rewrite (proj2 (Z.ltb_lt 0 z) Hz).
Qed.

(** ** Construction and the click type *)

(** C9.  [BaseField.__init__] takes the [click] keyword argument out of
    the arguments it hands on: the initializer of the base class receives
    the other arguments unchanged and no [click]; [StringList] takes out
    [delimiter] as well.  The click type is [STRING] for every class but
    [Integer] and its subclass, where it is [INT]. *)
Theorem BaseField_consumes_click (kwargs : gmap string value) :
  (BaseField__init__ kwargs).1 = default VNone (kwargs !! "click"%string)
  ∧ (BaseField__init__ kwargs).2 !! "click"%string = None
  ∧ dom (BaseField__init__ kwargs).2 = dom kwargs ∖ {["click"%string]}
  ∧ (BaseField__init__ kwargs).2 ⊆ kwargs
  ∧ (StringList__init__ kwargs).2 !! "click"%string = None
  ∧ (StringList__init__ kwargs).2 !! "delimiter"%string = None
  ∧ (StringList__init__ kwargs).2 ⊆ kwargs
  ∧ click_type String = STRING
  ∧ click_type Label = STRING
  ∧ (∀ inner, click_type (List inner) = STRING)
  ∧ (∀ inner delimiter, click_type (StringList inner delimiter) = STRING)
  ∧ click_type Integer = INT
  ∧ click_type PositiveInteger = INT.
Proof.
  unfold StringList__init__, BaseField__init__. simpl. split_and!; try done.
  - apply lookup_delete_eq.
  - apply dom_delete_L.
  - apply delete_subseteq.
  - apply lookup_delete_eq.
  - rewrite lookup_delete_ne by done. apply lookup_delete_eq.
  - etrans; apply delete_subseteq.
Qed.

Example BaseField_init_example :
  BaseField__init__
    {[ "click"%string := VStr (text "--label");
       "required"%string := VBool true ]}
  = (VStr (text "--label"), {[ "required"%string := VBool true ]}).
Proof. reflexivity. Qed.

(** ** Round trip *)

Section round_trip.
Variable py_str : value → pystr.
Variable name : option string.

Lemma comprehension_round_trip inner l :
  (∀ v, holds inner v = true →
        ∃ ext, serialize py_str inner v = Ok ext
               ∧ deserialize name inner ext = Ok v) →
  forallb (holds inner) l = true →
  ∃ exts, comprehension (serialize py_str inner) l = Ok exts
          ∧ Forall2 (λ ext v, deserialize name inner ext = Ok v) exts l.
Proof.
  intros IH. induction l as [|v l IHl]; simpl.
  { exists []. by split. }
  intros [Hv Hl]%andb_true_iff.
  destruct (IH v Hv) as (ext & -> & Hext).
  destruct (IHl Hl) as (exts & -> & Hexts).
  exists (ext :: exts). split; [done|]. by constructor.
Qed.

Lemma List_round_trip inner l :
  (∀ v, holds inner v = true →
        ∃ ext, serialize py_str inner v = Ok ext
               ∧ deserialize name inner ext = Ok v) →
  forallb (holds inner) l = true →
  ∃ exts, List__serialize (serialize py_str inner) (VList l) = Ok (VList exts)
          ∧ deserialize name (List inner) (VList exts) = Ok (VList l).
Proof.
  intros IH Hl.
  destruct (comprehension_round_trip inner l IH Hl) as (exts & Hser & Hde).
  exists exts. split.
  - unfold List__serialize. simpl. by rewrite Hser.
  - by apply List_deserialize_all_ok.
Qed.

(** C2.  For every field and every internal value it holds, [serialize]
    succeeds and [deserialize] of its result is the value again. *)
Theorem serialize_deserialize_round_trip f v :
  holds f v = true →
  ∃ ext, serialize py_str f v = Ok ext ∧ deserialize name f ext = Ok v.
Proof.
  revert v. induction f as [| | | |inner IH|inner IH delimiter]; intros v Hv.
  - destruct v; try done. by eexists.
  - destruct v; try done. by eexists.
  - destruct v as [| |z| | | | |]; try done. simpl in Hv.
    exists (VInt z). split; [done|].
    simpl. unfold PositiveInteger__validate. simpl. by rewrite Hv.
  - destruct v as [| | | |b| | |]; try done. simpl in Hv.
    apply bool_decide_eq_true in Hv as [s Hs].
    exists (VStr s). split.
    + simpl. unfold Label__serialize. simpl. by rewrite Hs.
    + rewrite deserialize_Label by done. simpl.
      by rewrite (utf8_encode_decode b s Hs).
  - destruct v as [| | | | |l| |]; try done. simpl in Hv.
    destruct (List_round_trip inner l IH Hv) as (exts & Hser & Hde).
    by exists (VList exts).
  - destruct v as [| | | | |l| |]; try done. simpl in Hv.
    destruct (List_round_trip inner l IH Hv) as (exts & Hser & Hde).
    exists (VList exts). split; [done|].
    by rewrite StringList_deserialize_list.
Qed.
End round_trip.

Example Integer_round_trip :
  serialize (λ _, []) Integer (VInt 42) = Ok (VInt 42)
  ∧ deserialize None Integer (VInt 42) = Ok (VInt 42).
Proof. done. Qed.

Example Label_round_trip :
  serialize (λ _, []) Label (VBytes (bytes "abc")) = Ok (VStr (text "abc"))
  ∧ deserialize None Label (VStr (text "abc")) = Ok (VBytes (bytes "abc")).
Proof. done. Qed.

Lemma serialize_deserialize_round_trip_witness :
  holds (List Label) (VList [VBytes (bytes "abc"); VBytes []]) = true
  ∧ ∃ ext,
      serialize (λ _, []) (List Label) (VList [VBytes (bytes "abc"); VBytes []])
      = Ok ext
      ∧ deserialize None (List Label) ext
        = Ok (VList [VBytes (bytes "abc"); VBytes []]).
Proof.
  split; [reflexivity|].
  apply (serialize_deserialize_round_trip (λ _, []) None (List Label)).
  reflexivity.
Defined.

(** Outside the values a [Label] holds, a byte sequence that [deserialize]
    passes through need not be one that [serialize] accepts. *)
Example Label_invalid_bytes_one_way :
  deserialize None Label (VBytes [byte_of 0xFF]) = Ok (VBytes [byte_of 0xFF])
  ∧ serialize (λ _, []) Label (VBytes [byte_of 0xFF]) = Raise UnicodeDecodeError
  ∧ holds Label (VBytes [byte_of 0xFF]) = false.
Proof. done. Qed.

(** * Further properties *)

(** ** What [deserialize] returns *)

Lemma List_loop_Ok_inv inner idx items acc errors acc' errors' :
  List_loop inner idx items acc errors = Ok (acc', errors') →
  ∃ ys es, acc' = acc ++ ys ∧ errors' = errors ++ es
           ∧ (es = [] → Forall2 (λ x y, inner x = Ok y) items ys).
Proof.
  revert idx acc errors. induction items as [|each rest IH];
    intros idx acc errors; simpl.
  { intros [= <- <-]. exists [], []. by rewrite !app_nil_r. }
  destruct (inner each) as [y|e] eqn:Ee.
  - intros (ys & es & -> & -> & Hall)%IH.
    exists (y :: ys), es. rewrite <-app_assoc. split_and!; [done..|].
    intros Hes. constructor; auto.
  - destruct (is_ValidationError e); [|done].
    intros (ys & es & -> & -> & Hall)%IH.
    exists (option_list (exn_valid_data e) ++ ys),
           ((idx, exn_messages e) :: es).
    rewrite <-!app_assoc. by split_and!.
Qed.

Lemma List__deserialize_Ok_inv inner v r :
  List__deserialize inner v = Ok r →
  ∃ items ys, (v = VList items ∨ v = VTuple items) ∧ r = VList ys
              ∧ Forall2 (λ x y, inner x = Ok y) items ys.
Proof.
  unfold List__deserialize.
  destruct v as [| | | | |items|items |]; try done; simpl;
    destruct (List_loop inner 0 items [] []) as [[acc errors]|] eqn:E;
    try done; simpl;
    apply List_loop_Ok_inv in E as (ys & es & -> & -> & Hall);
    (destruct es; [|done]); intros [= <-];
    exists items, ys; (split_and!; [by (left + right)|done|by apply Hall]).
Qed.

Lemma List__deserialize_items_ok inner items ys :
  Forall2 (λ x y, inner x = Ok y) items ys →
  List__deserialize inner (VList items) = Ok (VList ys)
  ∧ List__deserialize inner (VTuple items) = Ok (VList ys).
Proof.
  intros Hall. unfold List__deserialize. simpl.
  by rewrite (List_loop_all_ok _ 0 items [] [] ys Hall).
Qed.

Lemma Integer__deserialize_Ok_inv v r :
  v ≠ VNone → Integer__deserialize v = Ok r → ∃ z, r = VInt z.
Proof.
  intros Hv. unfold Integer__deserialize.
  destruct v; try done; destruct (py_int _) as [n|[]]; try done;
    intros [= <-]; eauto.
Qed.

Lemma Integer__deserialize_Raise_inv v e :
  Integer__deserialize v = Raise e →
  e = make_error "Not a valid integer." ∨ e = make_error "Number too large.".
Proof.
  unfold Integer__deserialize.
  destruct v as [| | | | | | |x]; try done; try (by intros [= <-]; left);
    destruct (py_int _) as [n|e'] eqn:E; try done;
    apply py_int_Raise in E as [[-> _]|[[-> | ->] _]];
    intros [= <-]; by (left + right).
Qed.

Lemma StringList__deserialize_Ok_inv delimiter super v r :
  StringList__deserialize delimiter super v = Ok r → ∃ v', super v' = Ok r.
Proof.
  unfold StringList__deserialize.
  destruct (match v with VList _ => _ | _ => _ end) as [v'|]; [|done].
  simpl. eauto.
Qed.

Lemma forallb_Forall2_diag {A B} (P : A → bool) (Q : B → A → Prop) l ys :
  Forall2 Q l ys → (∀ x y, Q x y → P y = true) → forallb P ys = true.
Proof.
  intros Hall HQ. induction Hall as [|x y l ys Hxy _ IH]; simpl; [done|].
  by rewrite (HQ x y Hxy), IH.
Qed.

(** What a field returns has the shape of its internal values. *)
Lemma deserialize_internal name f v r :
  deserialize name f v = Ok r → internal f r = true.
Proof.
  revert v r. induction f as [| | | |inner IH|inner IH delimiter]; intros v r.
  - destruct v as [| | |s|b| | |]; try done.
    + by intros [= <-].
    + rewrite deserialize_String by done. simpl.
      destruct (utf8_decode b); [|done]. by intros [= <-].
  - destruct v; try done; rewrite deserialize_Integer by done;
      intros [n ->]%Integer__deserialize_Ok_inv; done.
  - destruct (value_None_dec v) as [->|Hv]; [done|].
    rewrite deserialize_PositiveInteger by done.
    destruct (Integer__deserialize v) as [out|] eqn:E; [|done].
    apply Integer__deserialize_Ok_inv in E as [z ->]; [|done].
    simpl. unfold PositiveInteger__validate. simpl.
    destruct (0 <? z)%Z eqn:Hz; [|done]. simpl. by intros [= <-].
  - by intros [b ->]%Label_deserialize_bytes.
  - destruct (value_None_dec v) as [->|Hv]; [done|].
    rewrite deserialize_List by done.
    intros (items & ys & _ & -> & Hall)%List__deserialize_Ok_inv.
    simpl. eapply forallb_Forall2_diag; [done|]. intros x y. apply IH.
  - destruct (value_None_dec v) as [->|Hv]; [done|].
    rewrite deserialize_StringList by done.
    intros [v' (items & ys & _ & -> & Hall)%List__deserialize_Ok_inv]
      %StringList__deserialize_Ok_inv.
    simpl. eapply forallb_Forall2_diag; [done|]. intros x y. apply IH.
Qed.

Lemma forallb_elem_of {A} (P : A → bool) (l : list A) (x : A) :
  forallb P l = true → x ∈ l → P x = true.
Proof.
  induction l as [|y l IH]; simpl; [by intros _ ?%elem_of_nil|].
  intros [Hy Hl]%andb_true_iff [->|Hx]%elem_of_cons; auto.
Qed.

(** A value of that shape is returned as it is. *)
Lemma internal_fixed_point name f r :
  internal f r = true → deserialize name f r = Ok r.
Proof.
  revert r. induction f as [| | | |inner IH|inner IH delimiter]; intros r;
    destruct r as [| |z| | |l| |]; try done.
  - simpl. unfold PositiveInteger__validate. simpl. by intros ->.
  - intros Hl. simpl in Hl. apply List_deserialize_all_ok.
    apply Forall_Forall2_diag, Forall_forall. intros x Hx. apply IH.
    by eapply forallb_elem_of.
  - intros Hl. simpl in Hl. rewrite StringList_deserialize_list.
    apply List_deserialize_all_ok.
    apply Forall_Forall2_diag, Forall_forall. intros x Hx. apply IH.
    by eapply forallb_elem_of.
Qed.

(** X1.  For every field, [deserialize] is idempotent where it succeeds:
    what it returns, it returns unchanged when given it as input. *)
Theorem deserialize_idempotent name f v r :
  deserialize name f v = Ok r → deserialize name f r = Ok r.
Proof. intros Hr. eapply internal_fixed_point, deserialize_internal, Hr. Qed.

Lemma deserialize_idempotent_witness :
  let f := StringList PositiveInteger (VStr (text ",")) in
  deserialize None f (VStr (text "1, 20,3"))
  = Ok (VList [VInt 1; VInt 20; VInt 3])
  ∧ deserialize None f (VList [VInt 1; VInt 20; VInt 3])
    = Ok (VList [VInt 1; VInt 20; VInt 3]).
Proof.
  intros f. split; [reflexivity|].
  by apply (deserialize_idempotent None f (VStr (text "1, 20,3"))).
Defined.

(** X2.  The values a field's [deserialize] can return are exactly the
    values of its internal shape: never [None], a text for [String], an
    integer for [Integer], an integer above zero for [PositiveInteger], a
    byte sequence for [Label], and for the sequence fields a list (also for
    a tuple input) of values the element field can return. *)
Theorem deserialize_range name f r :
  (∃ v, deserialize name f v = Ok r) ↔ internal f r = true.
Proof.
  split.
  - intros [v Hv]. by eapply deserialize_internal.
  - intros Hr. exists r. by apply internal_fixed_point.
Qed.

(** ** List *)

(** X3.  [List.deserialize] succeeds exactly on a list or a tuple all of
    whose elements the element field converts; what it returns is then a
    list, of the same length, holding the output of each element at the
    index of the element. *)
Theorem List_deserialize_success name inner v r :
  deserialize name (List inner) v = Ok r
  ↔ ∃ items ys, (v = VList items ∨ v = VTuple items) ∧ r = VList ys
                ∧ Forall2 (λ x y, deserialize name inner x = Ok y) items ys.
Proof.
  split.
  - destruct (value_None_dec v) as [->|Hv]; [done|].
    rewrite deserialize_List by done. apply List__deserialize_Ok_inv.
  - intros (items & ys & Hv & -> & Hall).
    apply List__deserialize_items_ok in Hall as [Hlist Htuple].
    destruct Hv as [-> | ->]; by rewrite deserialize_List.
Qed.

Lemma List_loop_converted convert idx items acc errors :
  (∀ x e, x ∈ items → convert x = Raise e →
     is_ValidationError e = true ∧ exn_valid_data e = None) →
  List_loop convert idx items acc errors
  = Ok (acc ++ converted convert items, errors ++ refused convert idx items).
Proof.
  revert idx acc errors. induction items as [|x rest IH];
    intros idx acc errors Hve; simpl.
  { by rewrite !app_nil_r. }
  assert (Hrest : ∀ y e, y ∈ rest → convert y = Raise e →
                    is_ValidationError e = true ∧ exn_valid_data e = None).
  { intros y e Hy. apply Hve. by right. }
  unfold converted. simpl. destruct (convert x) as [y|e] eqn:Ex.
  - rewrite IH by done. by rewrite <-app_assoc.
  - destruct (Hve x e) as [-> ->]; [left|done|].
    rewrite IH by done. simpl. by rewrite app_nil_r, <-app_assoc.
Qed.

Lemma refused_indices convert idx items :
  Forall (λ i, idx ≤ i)%nat (refused convert idx items).*1
  ∧ StronglySorted lt (refused convert idx items).*1.
Proof.
  revert idx. induction items as [|x rest IH]; intros idx; simpl.
  { split; constructor. }
  destruct (IH (S idx)) as [Hle Hsorted].
  assert (Hlt : Forall (λ i, idx < i)%nat (refused convert (S idx) rest).*1).
  { eapply Forall_impl; [exact Hle|]. intros i Hi. simpl in Hi. lia. }
  assert (Hle' : Forall (λ i, idx ≤ i)%nat (refused convert (S idx) rest).*1).
  { eapply Forall_impl; [exact Hlt|]. intros i Hi. simpl in Hi. lia. }
  destruct (convert x); simpl; [done|].
  split; constructor; done.
Qed.

Lemma converted_cons convert x rest :
  converted convert (x :: rest)
  = match convert x with
    | Ok y => y :: converted convert rest
    | Raise _ => converted convert rest
    end.
Proof. unfold converted. simpl. by destruct (convert x). Qed.

Lemma converted_refused_length convert idx items :
  (length (converted convert items) + length (refused convert idx items)
   = length items)%nat.
Proof.
  revert idx. induction items as [|x rest IH]; intros idx; [done|].
  rewrite converted_cons. cbn [refused]. specialize (IH (S idx)).
  destruct (convert x); cbn [length]; lia.
Qed.

(** The errors of [String] and [Integer] are [ValidationError]s without
    data of their own. *)
Lemma scalar_errors name inner x e :
  inner = String ∨ inner = Integer →
  deserialize name inner x = Raise e →
  is_ValidationError e = true ∧ exn_valid_data e = None.
Proof.
  intros Hinner.
  destruct (value_None_dec x) as [->|Hx].
  { destruct Hinner as [-> | ->]; by intros [= <-]. }
  destruct Hinner as [-> | ->].
  - rewrite deserialize_String by done.
    destruct x as [| | |s|b| | |]; try done; try (by intros [= <-]).
    simpl. destruct (utf8_decode b); [done|]. by intros [= <-].
  - rewrite deserialize_Integer by done.
    by intros [-> | ->]%Integer__deserialize_Raise_inv.
Qed.

(** X21.  What [List.deserialize] keeps when elements are refused, for a
    list of [String] or of [Integer] elements, whose errors are
    [ValidationError]s without data of their own.  The call returns the
    outputs of all elements if none is refused, and otherwise fails with the
    messages of the refused elements, each under its index and in increasing
    order of the indices, and with the outputs of the other elements, in
    their order, as [valid_data]: every element is either among the outputs
    or among the errors. *)
Theorem List_deserialize_partial name inner items :
  inner = String ∨ inner = Integer →
  let outputs := converted (deserialize name inner) items in
  let errors := refused (deserialize name inner) 0 items in
  deserialize name (List inner) (VList items)
  = match errors with
    | [] => Ok (VList outputs)
    | _ => Raise (ValidationError (IndexedMessages errors)
                                  (Some (VList outputs)))
    end
  ∧ StronglySorted lt errors.*1
  ∧ (length outputs + length errors = length items)%nat.
Proof.
  intros Hinner outputs errors. split_and!.
  - rewrite List_deserialize_items.
    rewrite (List_loop_converted _ 0 items [] []); [done|].
    intros x e _. by apply scalar_errors.
  - apply refused_indices.
  - apply converted_refused_length.
Qed.

Lemma List_deserialize_partial_witness :
  let items := [VStr (text "0"); VStr (text "4"); VStr (text "x");
                VInt 7; VInt (-1)] in
  (Integer = String ∨ Integer = Integer)
  ∧ deserialize None (List Integer) (VList items)
    = Raise (ValidationError
               (IndexedMessages
                  [(2%nat, Messages ["Not a valid integer."%string])])
               (Some (VList [VInt 0; VInt 4; VInt 7; VInt (-1)]))).
Proof.
  intros items.
  assert (H : Integer = String ∨ Integer = Integer) by (right; reflexivity).
  split; [exact H|].
  exact (proj1 (List_deserialize_partial None Integer items H)).
Defined.

(** ** Errors *)

(** X4.  A field made of [String], [Integer] and [List] only, the classes
    that inherit their conversions from marshmallow unchanged, reports every
    input it refuses as a marshmallow [ValidationError]: no other exception
    leaves its [deserialize], whatever the raw value is. *)
Theorem deserialize_validation_errors_only name f v e :
  inherits_conversions f = true →
  deserialize name f v = Raise e →
  ∃ m valid_data, e = ValidationError m valid_data.
Proof.
  revert v e. induction f as [| | | |inner IH|inner IH delimiter];
    intros v e Hf; try done.
  - destruct v as [| | |s|b| | |]; try (intros [= <-]; by eexists _, _).
    rewrite deserialize_String by done. simpl.
    destruct (utf8_decode b); [done|]. intros [= <-]. by eexists _, _.
  - destruct (value_None_dec v) as [->|Hv]; [intros [= <-]; by eexists _, _|].
    rewrite deserialize_Integer by done.
    intros [-> | ->]%Integer__deserialize_Raise_inv; by eexists _, _.
  - destruct (value_None_dec v) as [->|Hv]; [intros [= <-]; by eexists _, _|].
    rewrite deserialize_List by done. unfold List__deserialize.
    destruct (is_collection v) eqn:Hc; [|intros [= <-]; by eexists _, _].
    assert (∃ items, py_iter v = Ok items) as [items ->].
    { destruct v; try done; by eexists. }
    simpl.
    destruct (List_loop_validation (deserialize name inner) 0 items [] [])
      as (acc' & errors' & -> & _).
    { intros x e' _ He'. by destruct (IH x e' Hf He') as (m & d & ->). }
    simpl. destruct errors'; [done|]. intros [= <-]. by eexists _, _.
Qed.

Lemma deserialize_validation_errors_only_witness :
  let f := List (List Integer) in
  let v := VList [VTuple [VStr (text "2"); VStr (text "two")];
                  VStr (text "x")] in
  let e := ValidationError
             (IndexedMessages
                [(0%nat, IndexedMessages
                           [(1%nat, Messages ["Not a valid integer."%string])]);
                 (1%nat, Messages ["Not a valid list."%string])])
             (Some (VList [VList [VInt 2]])) in
  inherits_conversions f = true
  ∧ deserialize None f v = Raise e
  ∧ ∃ m valid_data, e = ValidationError m valid_data.
Proof.
  intros f v e.
  assert (Hf : inherits_conversions f = true) by reflexivity.
  assert (He : deserialize None f v = Raise e) by reflexivity.
  split; [exact Hf|]. split; [exact He|].
  exact (deserialize_validation_errors_only None f v e Hf He).
Defined.

(** ** PositiveInteger *)

(** X5.  [PositiveInteger] returns what [Integer] returns, where that is
    above zero, and nothing else; an input [Integer] refuses is refused with
    the error of [Integer], before the sign is looked at. *)
Theorem PositiveInteger_refines_Integer name v :
  (∀ r, deserialize name PositiveInteger v = Ok r
        ↔ ∃ z, r = VInt z ∧ (0 < z)%Z
               ∧ deserialize name Integer v = Ok (VInt z))
  ∧ (∀ e, deserialize name Integer v = Raise e →
          deserialize name PositiveInteger v = Raise e).
Proof.
  destruct (value_None_dec v) as [->|Hv].
  { split; [|done]. intros r. split; [done|]. by intros (z & _ & _ & ?). }
  rewrite deserialize_PositiveInteger, deserialize_Integer by done.
  destruct (Integer__deserialize v) as [out|e'] eqn:E.
  - apply Integer__deserialize_Ok_inv in E as [z ->]; [|done].
    split; [|done]. intros r. simpl. unfold PositiveInteger__validate. simpl.
    destruct (Z.ltb_spec 0 z); simpl; split.
    + intros [= <-]. by exists z.
    + by intros (z' & -> & _ & [= ->]).
    + done.
    + intros (z' & -> & ? & [= ->]). lia.
  - split; [|done]. intros r. split; [done|]. by intros (z & _ & _ & ?).
Qed.

(** ** Label *)





(** X7.  A text that [Label.deserialize] accepts comes back from
    [Label.serialize]: serializing the label made from a text gives that
    text. *)
Theorem Label_text_round_trip py_str name s b :
  deserialize name Label (VStr s) = Ok b →
  serialize py_str Label b = Ok (VStr s).
Proof.
  rewrite deserialize_Label by done. simpl.
  destruct (utf8_encode s) as [bs|] eqn:Es; [|done]. intros [= <-].
  simpl. unfold Label__serialize. simpl.
  by rewrite (utf8_decode_encode s bs Es).
Qed.

Lemma Label_text_round_trip_witness :
  deserialize None Label (VStr [0x6C; 0xE9; 0x20AC])
  = Ok (VBytes (byte_of <$> [0x6C; 0xC3; 0xA9; 0xE2; 0x82; 0xAC]))
  ∧ serialize (λ _, []) Label
      (VBytes (byte_of <$> [0x6C; 0xC3; 0xA9; 0xE2; 0x82; 0xAC]))
    = Ok (VStr [0x6C; 0xE9; 0x20AC]).
Proof.
  split; [reflexivity|].
  by apply (Label_text_round_trip (λ _, []) None [0x6C; 0xE9; 0x20AC]).
Defined.

(** X8.  [Label.deserialize] keeps texts apart: two texts that give the
    same label are the same text. *)
Theorem Label_deserialize_injective name s1 s2 b :
  deserialize name Label (VStr s1) = Ok b →
  deserialize name Label (VStr s2) = Ok b →
  s1 = s2.
Proof.
  rewrite !deserialize_Label by done. simpl.
  destruct (utf8_encode s1) as [b1|] eqn:E1; [|done].
  destruct (utf8_encode s2) as [b2|] eqn:E2; [|done].
  intros [= <-] [= ->].
  apply utf8_decode_encode in E1, E2. congruence.
Qed.

Lemma Label_deserialize_injective_witness :
  deserialize None Label (VStr (text "label")) = Ok (VBytes (bytes "label"))
  ∧ text "label" = text "label".
Proof.
  split; [reflexivity|].
  by apply (Label_deserialize_injective None (text "label") (text "label")
              (VBytes (bytes "label"))).
Defined.

(** X9.  [Label.serialize] succeeds exactly on a byte sequence that is the
    UTF-8 encoding of a text, and returns that text; unlike [deserialize] it
    passes nothing through, so serializing its own output fails. *)
Theorem Label_serialize_success py_str v r :
  (serialize py_str Label v = Ok r
   ↔ ∃ b s, v = VBytes b ∧ r = VStr s ∧ utf8_encode s = Some b)
  ∧ (serialize py_str Label v = Ok r →
     serialize py_str Label r = Raise AttributeError).
Proof.
  assert (Hinv : serialize py_str Label v = Ok r →
                 ∃ b s, v = VBytes b ∧ r = VStr s ∧ utf8_encode s = Some b).
  { simpl. unfold Label__serialize.
    destruct v as [| | | |b| | |]; try done. simpl.
    destruct (utf8_decode b) as [s|] eqn:Es; [|done]. intros [= <-].
    exists b, s. split_and!; [done..|]. by apply utf8_encode_decode. }
  split; [split; [done|]|].
  - intros (b & s & -> & -> & Hs). simpl. unfold Label__serialize. simpl.
    by rewrite (utf8_decode_encode s b Hs).
  - by intros (b & s & -> & -> & _)%Hinv.
Qed.

Lemma Label_serialize_success_witness :
  serialize (λ _, []) Label (VBytes (bytes "abc")) = Ok (VStr (text "abc"))
  ∧ serialize (λ _, []) Label (VStr (text "abc")) = Raise AttributeError.
Proof.
  split; [reflexivity|].
  by apply (Label_serialize_success (λ _, []) (VBytes (bytes "abc"))).
Defined.

(** ** StringList *)

Section split_join.
Context {A : Type} `{EqDecision A}.
Implicit Types (sep s seg : list A) (segs : list (list A)).

Lemma split_on_skip sep pre s :
  split_on sep (length pre) (pre ++ s) = split_on sep 0 s.
Proof. induction pre as [|c pre IH]; [done|apply IH]. Qed.

Lemma starts_with_other sep c s :
  c ∉ sep → sep ≠ [] → starts_with (c :: s) sep = false.
Proof.
  destruct sep as [|p sep]; [done|]. intros Hc _. simpl.
  rewrite bool_decide_eq_false_2; [done|].
  intros ->. apply Hc. left.
Qed.

Lemma split_on_last sep seg :
  sep ≠ [] → (∀ x, x ∈ seg → x ∉ sep) → split_on sep 0 seg = [seg].
Proof.
  intros Hsep. induction seg as [|c seg IH]; intros Hseg; [done|].
  cbn [split_on]. rewrite starts_with_other by (done || apply Hseg; left).
  rewrite IH; [done|]. intros x Hx. apply Hseg. by right.
Qed.

Lemma split_on_segment sep seg rest :
  sep ≠ [] → (∀ x, x ∈ seg → x ∉ sep) →
  split_on sep 0 (seg ++ sep ++ rest) = seg :: split_on sep 0 rest.
Proof.
  intros Hsep. induction seg as [|c seg IH]; intros Hseg.
  - destruct sep as [|p sep]; [done|]. simpl app. cbn [split_on].
    assert (starts_with (p :: sep ++ rest) (p :: sep) = true) as ->.
    { apply starts_with_prefix. by exists rest. }
    f_equal. replace (length (p :: sep) - 1)%nat with (length sep)
      by (simpl; lia).
    apply split_on_skip.
  - simpl app. cbn [split_on].
    rewrite starts_with_other by (done || apply Hseg; left).
    rewrite IH; [done|]. intros x Hx. apply Hseg. by right.
Qed.

(** Splitting what was joined gives the segments back, when no segment
    holds an element of the separator. *)
Lemma split_join sep segs :
  sep ≠ [] → segs ≠ [] →
  Forall (λ seg, ∀ x, x ∈ seg → x ∉ sep) segs →
  split sep (join sep segs) = segs.
Proof.
  intros Hsep Hne Hsegs. unfold split.
  induction Hsegs as [|seg segs Hseg Hsegs IH]; [done|].
  destruct segs as [|seg' segs].
  - simpl. by apply split_on_last.
  - rewrite join_cons by done. rewrite split_on_segment by done.
    by rewrite IH.
Qed.
End split_join.

Section split_whitespace_properties.
Context {A : Type} (is_space : A → bool).

Lemma split_whitespace_segments cur s :
  Forall (λ c, is_space c = false) cur →
  Forall (λ seg, seg ≠ [] ∧ Forall (λ c, is_space c = false) seg)
         (split_whitespace is_space cur s).
Proof.
  assert (Hcur : ∀ c cur, Forall (λ c, is_space c = false) (c :: cur) →
            reverse (c :: cur) ≠ []
            ∧ Forall (λ c, is_space c = false) (reverse (c :: cur))).
  { intros c cur' H. split; [|by apply Forall_reverse].
    rewrite reverse_cons. by destruct (reverse cur'). }
  revert cur. induction s as [|c s IH]; intros cur Hc; simpl.
  { destruct cur; constructor; auto. }
  destruct (is_space c) eqn:Ec.
  - destruct cur; [by apply IH|]. constructor; [auto|by apply IH].
  - apply IH. by constructor.
Qed.

Lemma split_whitespace_concat cur s :
  concat (split_whitespace is_space cur s)
  = reverse cur ++ filter (λ c, is_space c = false) s.
Proof.
  revert cur. induction s as [|c s IH]; intros cur; simpl.
  { destruct cur; simpl; by rewrite ?app_nil_r. }
  destruct (is_space c) eqn:Ec.
  - rewrite filter_cons_False by congruence.
    destruct cur; simpl; by rewrite IH.
  - rewrite filter_cons_True by done. rewrite IH, reverse_cons.
    by rewrite <-app_assoc.
Qed.

Lemma split_whitespace_blank s :
  Forall (λ c, is_space c = true) s → split_whitespace is_space [] s = [].
Proof. induction 1 as [|c s Hc _ IH]; simpl; [done|by rewrite Hc]. Qed.
End split_whitespace_properties.

(** X10.  A delimited text and the list of its items are read alike: when
    no item holds a character of the delimiter, [StringList.deserialize] of
    the items joined with the delimiter is [StringList.deserialize] of the
    list of the items.  (The empty list has no such text: the empty text is
    read as one empty item.) *)
Theorem StringList_deserialize_joined name inner sep items :
  sep ≠ [] → items ≠ [] →
  Forall (λ item, ∀ c, c ∈ item → c ∉ sep) items →
  deserialize name (StringList inner (VStr sep)) (VStr (join sep items))
  = deserialize name (StringList inner (VStr sep)) (VList (VStr <$> items)).
Proof.
  intros Hsep Hne Hitems.
  rewrite StringList_deserialize_text, StringList_deserialize_list by done.
  by rewrite split_join.
Qed.

Lemma avoids_separator {A} `{EqDecision A} (sep : list A) items :
  forallb (forallb (λ c, bool_decide (c ∉ sep))) items = true →
  Forall (λ item, ∀ c, c ∈ item → c ∉ sep) items.
Proof.
  intros H. apply Forall_forall. intros item Hitem c Hc.
  eapply forallb_elem_of in H; [|done].
  eapply forallb_elem_of in H; [|done].
  by apply bool_decide_eq_true in H.
Qed.

Lemma StringList_deserialize_joined_witness :
  let items := [text "alice"; []; text "bob+carol"] in
  text ", " ≠ [] ∧ items ≠ []
  ∧ Forall (λ item, ∀ c, c ∈ item → c ∉ text ", ") items
  ∧ deserialize None (StringList Label (VStr (text ", ")))
      (VStr (text "alice, , bob+carol"))
    = deserialize None (StringList Label (VStr (text ", ")))
        (VList (VStr <$> items)).
Proof.
  intros items.
  assert (H : Forall (λ item, ∀ c, c ∈ item → c ∉ text ", ") items).
  { by apply avoids_separator. }
  split_and!; [done|done|exact H|].
  exact (StringList_deserialize_joined None Label (text ", ") items
           ltac:(done) ltac:(done) H).
Defined.

(** X11.  With a delimiter other than [None] (the default [","]
    included), a text input of [StringList] never gives the empty list: the
    call succeeds only where the delimiter is a text that is not empty, and
    what it returns then has one element for each segment of the input, and
    there is always a segment.  The empty text is read as one item, the
    empty text.  With the delimiter [None] it is otherwise: a text of white
    space only, the empty text included, gives the empty list. *)
Theorem StringList_text_segments name inner delimiter s r :
  deserialize name (StringList inner delimiter) (VStr s) = Ok r →
  (delimiter ≠ VNone →
   ∃ sep ys, delimiter = VStr sep ∧ sep ≠ [] ∧ r = VList ys
     ∧ length ys = length (split sep s) ∧ ys ≠ []
     ∧ (s = [] → ∃ y, ys = [y] ∧ deserialize name inner (VStr []) = Ok y))
  ∧ (delimiter = VNone → Forall (λ c, str_isspace c = true) s → r = VList []).
Proof.
  intros Hr. split.
  - intros Hnone.
    assert (∃ sep, delimiter = VStr sep ∧ sep ≠ []) as (sep & -> & Hsep).
    { rewrite deserialize_StringList in Hr by done.
      destruct delimiter as [| | |[|p sep]| | | |]; try done.
      by exists (p :: sep). }
    rewrite StringList_deserialize_text, deserialize_List in Hr by done.
    apply List__deserialize_Ok_inv in Hr as (items & ys & Hv & -> & Hall).
    destruct Hv as [[= <-]|?]; [|done].
    exists sep, ys. split_and!; [done..| | |].
    + pose proof (Forall2_length _ _ _ Hall) as Hlen.
      by rewrite length_fmap in Hlen.
    + intros ->. apply Forall2_nil_inv_r in Hall.
      apply fmap_nil_inv in Hall. by apply split_on_not_nil in Hall.
    + intros ->. destruct sep as [|p sep]; [done|]. simpl in Hall.
      apply Forall2_cons_inv_l in Hall
        as (y & ys' & Hy & ->%Forall2_nil_inv_l & ->).
      by exists y.
  - intros -> Hblank.
    rewrite deserialize_StringList in Hr by done.
    unfold StringList__deserialize in Hr. simpl in Hr.
    rewrite split_whitespace_blank in Hr by done. by injection Hr as <-.
Qed.

Lemma StringList_text_segments_witness :
  deserialize None (StringList String (VStr (text ","))) (VStr [])
  = Ok (VList [VStr []])
  ∧ ∃ sep ys, VStr (text ",") = VStr sep ∧ sep ≠ []
      ∧ VList [VStr []] = VList ys
      ∧ length ys = length (split sep []) ∧ ys ≠ []
      ∧ (@nil N = [] →
         ∃ y, ys = [y] ∧ deserialize None String (VStr []) = Ok y).
Proof.
  assert (H : deserialize None (StringList String (VStr (text ","))) (VStr [])
              = Ok (VList [VStr []])) by reflexivity.
  split; [exact H|].
  exact (proj1 (StringList_text_segments None String (VStr (text ",")) []
                  (VList [VStr []]) H) ltac:(done)).
Defined.

(** X12.  A delimiter that is neither [None] nor a text that is not empty
    makes [StringList] fail on every text input, and not with a
    [ValidationError]: the empty text as delimiter gives the [ValueError] of
    [str.split], any other value its [TypeError].  List inputs do not look
    at the delimiter. *)
Theorem StringList_delimiter_misuse name inner delimiter :
  delimiter ≠ VNone → (∀ sep, delimiter = VStr sep → sep = []) →
  let e := match delimiter with VStr _ => ValueError | _ => TypeError end in
  (∀ s, deserialize name (StringList inner delimiter) (VStr s) = Raise e)
  ∧ is_ValidationError e = false
  ∧ ∀ items, deserialize name (StringList inner delimiter) (VList items)
             = deserialize name (List inner) (VList items).
Proof.
  intros Hnone Hsep e. split_and!.
  - intros s. rewrite deserialize_StringList by done. unfold e.
    destruct delimiter as [| | |sep| | | |]; try done.
    by rewrite (Hsep sep eq_refl).
  - unfold e. by destruct delimiter.
  - intros items. apply StringList_deserialize_list.
Qed.

Lemma StringList_delimiter_misuse_witness :
  VStr [] ≠ VNone ∧ (∀ sep : pystr, VStr [] = VStr sep → sep = [])
  ∧ (∀ s, deserialize None (StringList String (VStr [])) (VStr s)
          = Raise ValueError).
Proof.
  assert (H : ∀ sep : pystr, VStr [] = VStr sep → sep = []).
  { by intros sep [= <-]. }
  split; [done|]. split; [exact H|].
  exact (proj1 (StringList_delimiter_misuse None String (VStr [])
                  ltac:(done) H)).
Defined.

(** X13.  [delimiter=None] is not the same as no [delimiter]: the value
    is kept, and [str.split(None)] splits at runs of white space.  The items
    are then the maximal runs of characters that are not white space: none
    is empty, none holds white space, together they are the text without its
    white space, and a text of white space only (the empty text included)
    is read, by every element field, as the empty list. *)
Theorem StringList_None_delimiter name inner (kwargs : gmap string value) s :
  kwargs !! "delimiter"%string = Some VNone →
  let f := new_StringList inner kwargs in
  let items := split_whitespace str_isspace [] s in
  f = StringList inner VNone
  ∧ deserialize name f (VStr s)
    = deserialize name (List inner) (VList (VStr <$> items))
  ∧ Forall (λ item, item ≠ [] ∧ Forall (λ c, str_isspace c = false) item)
           items
  ∧ concat items = filter (λ c, str_isspace c = false) s
  ∧ (Forall (λ c, str_isspace c = true) s →
     deserialize name f (VStr s) = Ok (VList [])).
Proof.
  intros Hk f items.
  assert (Hf : f = StringList inner VNone).
  { unfold f, new_StringList, StringList__init__. by rewrite Hk. }
  assert (Hs : deserialize name f (VStr s)
               = deserialize name (List inner) (VList (VStr <$> items))).
  { rewrite Hf. by rewrite deserialize_StringList, deserialize_List. }
  split_and!; [done|done|..].
  - by apply split_whitespace_segments.
  - unfold items. by rewrite split_whitespace_concat.
  - intros Hblank. rewrite Hs. unfold items.
    by rewrite split_whitespace_blank.
Qed.

Lemma StringList_None_delimiter_witness :
  let kwargs : gmap string value := {[ "delimiter"%string := VNone ]} in
  kwargs !! "delimiter"%string = Some VNone
  ∧ deserialize None (new_StringList Integer kwargs) (VStr (text "  7 8,9 "))
    = deserialize None (List Integer)
        (VList [VStr (text "7"); VStr (text "8,9")]).
Proof.
  intros kwargs. split; [reflexivity|].
  exact (proj1 (proj2 (StringList_None_delimiter None Integer kwargs
                         (text "  7 8,9 ") eq_refl))).
Defined.

(** X14.  Duck typing of the split: with a byte sequence that is not empty
    as delimiter, [StringList] splits a byte-sequence input as it splits a
    text with a text delimiter (the segments, joined with the delimiter,
    are the input again and do not contain the delimiter) and hands the
    byte segments to the element field. *)
Theorem StringList_deserialize_bytes name inner (sep : pybytes) b :
  sep ≠ [] →
  deserialize name (StringList inner (VBytes sep)) (VBytes b)
  = deserialize name (List inner) (VList (VBytes <$> split sep b))
  ∧ join sep (split sep b) = b
  ∧ (∀ seg pre post, seg ∈ split sep b → seg ≠ pre ++ sep ++ post)
  ∧ (∀ ys, Forall2 (λ seg y, deserialize name inner (VBytes seg) = Ok y)
                   (split sep b) ys →
           deserialize name (StringList inner (VBytes sep)) (VBytes b)
           = Ok (VList ys)).
Proof.
  intros Hsep.
  assert (Hb : deserialize name (StringList inner (VBytes sep)) (VBytes b)
               = deserialize name (List inner) (VList (VBytes <$> split sep b))).
  { rewrite deserialize_StringList, deserialize_List by done. by destruct sep. }
  split_and!; [done|by apply join_split|..].
  - intros seg pre post. by apply split_on_no_separator.
  - intros ys Hall. rewrite Hb. apply List_deserialize_all_ok.
    by apply Forall2_fmap_l.
Qed.

Lemma StringList_deserialize_bytes_witness :
  bytes "," ≠ []
  ∧ deserialize None (StringList Label (VBytes (bytes ",")))
      (VBytes (bytes "a,,b"))
    = Ok (VList [VBytes (bytes "a"); VBytes []; VBytes (bytes "b")]).
Proof.
  split; [done|].
  apply (StringList_deserialize_bytes None Label (bytes ",") (bytes "a,,b"));
    [done|].
  repeat constructor.
Defined.

(** ** Integer *)

Lemma decimal_grouped ds :
  ds ≠ [] → Forall (λ d, d < 10) ds →
  grouped_digits (decimal ds) (Z.of_N <$> ds).
Proof.
  intros Hne Hds. induction Hds as [|d ds Hd Hds IH]; [done|].
  destruct ds as [|d' ds'].
  - apply digits_one. by apply digit_value_decimal.
  - apply digits_next; [by apply digit_value_decimal|by apply IH].
Qed.

Lemma decimal_value_digits ds : digits_value (Z.of_N <$> ds) = decimal_value ds.
Proof.
  unfold digits_value, decimal_value. generalize 0%Z.
  induction ds as [|d ds IH]; intros acc; simpl; [done|apply IH].
Qed.

Lemma decimal_no_space ds :
  Forall (λ d, d < 10) ds → Forall (λ c, int_isspace c = false) (decimal ds).
Proof.
  intros Hds. unfold decimal. apply Forall_fmap. eapply Forall_impl; [done|].
  intros d Hd. simpl in *. destruct (int_isspace (48 + d)) eqn:E; [|done].
  apply int_isspace_not_numeral in E as [E _].
  by rewrite digit_value_decimal in E.
Qed.

(** The decimal numerals of ASCII are numerals, up to the number of digits
    that [int] reads. *)
Lemma decimal_numeral ds :
  ds ≠ [] → Forall (λ d, d < 10) ds → (length ds ≤ int_max_str_digits)%nat →
  signed_numeral (decimal ds) (decimal_value ds)
  ∧ signed_numeral (43 :: decimal ds) (decimal_value ds)
  ∧ signed_numeral (45 :: decimal ds) (- decimal_value ds).
Proof.
  intros Hne Hds Hn. rewrite <-decimal_value_digits.
  pose proof (decimal_grouped ds Hne Hds) as Hg.
  assert ((length (Z.of_N <$> ds) ≤ int_max_str_digits)%nat)
    by by rewrite length_fmap.
  split_and!; by constructor.
Qed.

Lemma Integer_deserialize_input name v z :
  integer_input v z → deserialize name Integer v = Ok (VInt z).
Proof.
  intros Hv.
  assert (Hint : py_int v = Ok z) by (apply py_int_Ok; by left).
  destruct Hv; rewrite deserialize_Integer by done;
    unfold Integer__deserialize; by rewrite Hint.
Qed.

Lemma Integer_deserialize_Ok_input name v z :
  deserialize name Integer v = Ok (VInt z) → integer_input v z.
Proof.
  destruct (value_None_dec v) as [->|Hv]; [done|].
  rewrite deserialize_Integer by done. unfold Integer__deserialize.
  intros H.
  assert (Hint : py_int v = Ok z ∧ ∀ b, v ≠ VBool b).
  { destruct v as [| b | n | s | b | l | l | x]; try done;
      (split; [|done]);
      destruct (py_int _) as [n'|[]]; try done; by injection H as ->. }
  destruct Hint as [[?|(b & -> & _)]%py_int_Ok Hb]; [done|by destruct (Hb b)].
Qed.

(** A numeral of more digits than [int] reads is refused. *)
Lemma Integer_deserialize_too_long name ds :
  Forall (λ d, d < 10) ds → (int_max_str_digits < length ds)%nat →
  deserialize name Integer (VStr (decimal ds))
  = Raise (make_error "Not a valid integer.").
Proof.
  intros Hds Hn.
  assert (Hne : ds ≠ []) by (intros ->; simpl in Hn; lia).
  pose proof (decimal_grouped ds Hne Hds) as Hg.
  rewrite deserialize_Integer by done. unfold Integer__deserialize, py_int.
  rewrite strip_no_space by by apply decimal_no_space.
  destruct (grouped_digits_chars _ _ Hg) as [_ (c & r & Hc & Hd)].
  rewrite parse_int_unsigned.
  - unfold parse_unsigned.
    rewrite (grouped_digits_count _ _ Hg), length_fmap.
    by rewrite (proj2 (Nat.leb_gt _ _) Hn).
  - rewrite Hc. intros r' [= -> _]. by destruct Hd.
  - rewrite Hc. intros r' [= -> _]. by destruct Hd.
Qed.

(** X15.  [Integer.deserialize] returns the integer [z] exactly on the
    inputs that can be read as [z]: the integer itself, a finite float that
    rounds to it toward zero, and a text or a byte sequence made of a
    base-10 numeral of [z] with white space around it.  The numeral is a
    sign or none, then decimal digits (of any script for a text, of ASCII
    for bytes) with single underscores allowed between two digits; the
    white space is the one [int] strips, which leaves out the separators
    [U+001C] to [U+001F].  So a decimal numeral of ASCII of at most 4300
    digits is read as its number, with any such white space around it and
    leading zeros allowed, and one of more digits is refused. *)
Theorem Integer_deserialize_numeral name :
  (∀ v z, deserialize name Integer v = Ok (VInt z) ↔ integer_input v z)
  ∧ (∀ ws1 ws2 ds,
       Forall (λ c, int_isspace c = true) ws1 →
       Forall (λ c, int_isspace c = true) ws2 →
       ds ≠ [] → Forall (λ d, d < 10) ds →
       (length ds ≤ int_max_str_digits)%nat →
       deserialize name Integer (VStr (ws1 ++ decimal ds ++ ws2))
       = Ok (VInt (decimal_value ds))
       ∧ deserialize name Integer (VStr (ws1 ++ (45 :: decimal ds) ++ ws2))
         = Ok (VInt (- decimal_value ds))
       ∧ deserialize name Integer (VStr (ws1 ++ (43 :: decimal ds) ++ ws2))
         = Ok (VInt (decimal_value ds)))
  ∧ (∀ ds, Forall (λ d, d < 10) ds → (int_max_str_digits < length ds)%nat →
       deserialize name Integer (VStr (decimal ds))
       = Raise (make_error "Not a valid integer."))
  ∧ deserialize name Integer (VStr [0x1C; 0x34; 0x32])
    = Raise (make_error "Not a valid integer.").
Proof.
  split_and!.
  - intros v z. split;
      [apply Integer_deserialize_Ok_input|apply Integer_deserialize_input].
  - intros ws1 ws2 ds H1 H2 Hne Hds Hn.
    destruct (decimal_numeral ds Hne Hds Hn) as (Hu & Hp & Hm).
    split_and!; by apply Integer_deserialize_input; do 2 constructor.
  - apply Integer_deserialize_too_long.
  - reflexivity.
Qed.

Lemma Integer_deserialize_numeral_witness :
  integer_input (VStr ([0xA0] ++ [45; 0x660; 0x664; 95; 0x662] ++ [0x0A]))
    (- digits_value [0; 4; 2]%Z)
  ∧ deserialize None Integer
      (VStr ([0xA0] ++ [45; 0x660; 0x664; 95; 0x662] ++ [0x0A]))
    = Ok (VInt (-42)).
Proof.
  assert (H : integer_input
                (VStr ([0xA0] ++ [45; 0x660; 0x664; 95; 0x662] ++ [0x0A]))
                (- digits_value [0; 4; 2]%Z)).
  { do 2 constructor; [by repeat constructor..|].
    apply numeral_minus; [|simpl; unfold int_max_str_digits; lia].
    apply digits_next; [reflexivity|].
    apply digits_underscore; [reflexivity|]. by apply digits_one. }
  split; [exact H|].
  exact (proj2 (proj1 (Integer_deserialize_numeral None) _ _) H).
Defined.

(** ** Serialization of lists *)

Lemma comprehension_Ok f items xs :
  comprehension f items = Ok xs ↔ Forall2 (λ each x, f each = Ok x) items xs.
Proof.
  revert xs. induction items as [|each rest IH]; intros xs; simpl.
  { split; [intros [= <-]; constructor|by intros ->%Forall2_nil_inv_l]. }
  destruct (f each) as [x|e] eqn:Ef; simpl.
  - destruct (comprehension f rest) as [xs'|e] eqn:Er; simpl.
    + split.
      * intros [= <-]. constructor; [done|]. by apply IH.
      * intros (x' & xs'' & Hx & Hr%IH & ->)%Forall2_cons_inv_l. congruence.
    + split; [done|].
      intros (x' & xs'' & Hx & Hr%IH & ->)%Forall2_cons_inv_l. done.
  - split; [done|].
    intros (x' & xs'' & Hx & _)%Forall2_cons_inv_l. congruence.
Qed.

Lemma comprehension_Raise f pre each post e :
  Forall (λ x, ∃ y, f x = Ok y) pre →
  f each = Raise e →
  comprehension f (pre ++ each :: post) = Raise e.
Proof.
  intros Hpre He. induction Hpre as [|x pre [y Hx] _ IH]; simpl.
  { by rewrite He. }
  rewrite Hx. simpl. by rewrite IH.
Qed.

(** X16.  [serialize] of a sequence field collects nothing: it returns
    the list of the serialized elements exactly when every element
    serializes, and otherwise fails with the exception of the first element
    that fails, passed on as it is.  For a list of labels that is the
    [UnicodeDecodeError] of the first label that is not UTF-8. *)
Theorem List_serialize_elements py_str inner l :
  (∀ r, serialize py_str (List inner) (VList l) = Ok r
        ↔ ∃ exts, r = VList exts
                  ∧ Forall2 (λ v ext, serialize py_str inner v = Ok ext) l exts)
  ∧ (∀ pre v post e,
       l = pre ++ v :: post →
       Forall (λ x, ∃ ext, serialize py_str inner x = Ok ext) pre →
       serialize py_str inner v = Raise e →
       serialize py_str (List inner) (VList l) = Raise e)
  ∧ (∀ delimiter, serialize py_str (StringList inner delimiter) (VList l)
                  = serialize py_str (List inner) (VList l)).
Proof.
  split_and!; [| |done].
  - intros r. simpl. unfold List__serialize. simpl.
    destruct (comprehension (serialize py_str inner) l) as [xs|e] eqn:E; simpl.
    + apply comprehension_Ok in E. split.
      * intros [= <-]. by exists xs.
      * intros (exts & -> & Hall). apply comprehension_Ok in Hall, E.
        congruence.
    + split; [done|]. intros (exts & -> & Hall%comprehension_Ok). congruence.
  - intros pre v post e -> Hpre Hv. simpl. unfold List__serialize. simpl.
    by rewrite (comprehension_Raise _ pre v post e).
Qed.

Lemma List_serialize_elements_witness :
  let l := [VBytes (bytes "a"); VBytes [byte_of 0xFF]; VInt 5] in
  l = [VBytes (bytes "a")] ++ VBytes [byte_of 0xFF] :: [VInt 5]
  ∧ Forall (λ x, ∃ ext, serialize (λ _, []) Label x = Ok ext) [VBytes (bytes "a")]
  ∧ serialize (λ _, []) Label (VBytes [byte_of 0xFF]) = Raise UnicodeDecodeError
  ∧ serialize (λ _, []) (List Label) (VList l) = Raise UnicodeDecodeError.
Proof.
  intros l.
  assert (H : Forall (λ x, ∃ ext, serialize (λ _, []) Label x = Ok ext)
                     [VBytes (bytes "a")]).
  { repeat constructor. by eexists. }
  split; [done|]. split; [exact H|]. split; [done|].
  exact (proj1 (proj2 (List_serialize_elements (λ _, []) Label l))
           [VBytes (bytes "a")] (VBytes [byte_of 0xFF]) [VInt 5]
           UnicodeDecodeError eq_refl H eq_refl).
Defined.

(** ** Fixtures of the integration tests *)

Lemma contains_spec s sub :
  contains s sub = true ↔ ∃ pre post, s = pre ++ sub ++ post.
Proof.
  induction s as [|c s IH].
  - cbn [contains]. rewrite orb_false_r, starts_with_prefix. split.
    + intros [post Hpost]. by exists [], post.
    + intros (pre & post & Heq). symmetry in Heq.
      apply app_eq_nil in Heq as [-> [-> ->]%app_eq_nil]. by exists [].
  - cbn [contains]. rewrite orb_true_iff, starts_with_prefix, IH. split.
    + intros [[post Hpost]|(pre & post & ->)].
      * by exists [], post.
      * by exists (c :: pre), post.
    + intros (pre & post & Heq). destruct pre as [|c' pre].
      * left. by exists post.
      * right. injection Heq as -> ->. by exists pre, post.
Qed.

Lemma mock_reservoir_addresses_lookup accounts members addresses :
  ∃ d, mock_reservoir_addresses accounts (Some members) addresses = Ok d
       ∧ ∀ a, d !! a
              = if bool_decide (a ∈ accounts ∧ a ∉ members) then Some 1%Z
                else addresses !! a.
Proof.
  revert addresses. induction accounts as [|b accounts IH]; intros addresses.
  { exists addresses. split; [done|]. intros a.
    rewrite bool_decide_eq_false_2; [done|]. by intros [?%elem_of_nil _]. }
  simpl. destruct (IH (if negb (bool_decide (b ∈ members))
                       then <[b:=1%Z]> addresses else addresses))
    as (d & -> & Hd).
  exists d. split; [done|]. intros a. rewrite Hd.
  destruct (decide (a ∈ accounts ∧ a ∉ members)) as [[Ha Hm]|Hnot].
  { rewrite !bool_decide_eq_true_2; [done|..]; split; by (done || right). }
  rewrite (bool_decide_eq_false_2 _ Hnot).
  destruct (decide (b ∈ members)) as [Hb|Hb].
  - rewrite (bool_decide_eq_true_2 _ Hb). simpl.
    rewrite bool_decide_eq_false_2; [done|].
    intros [[->|Ha]%elem_of_cons Hm]; [done|]. by apply Hnot.
  - rewrite (bool_decide_eq_false_2 _ Hb). simpl.
    destruct (decide (a = b)) as [->|Hab].
    + rewrite lookup_insert_eq.
      rewrite bool_decide_eq_true_2; [done|]. split; [left|done].
    + rewrite lookup_insert_ne by done.
      rewrite bool_decide_eq_false_2; [done|].
      intros [[->|Ha]%elem_of_cons Hm]; [done|]. by apply Hnot.
Qed.

(** X17.  [mock_reservoir], given a container of addresses to leave out,
    returns the reservoir of exactly the staking providers of the test chain
    that are not in the container, each with weight 1 (a provider listed
    twice is there once).  With its default [without=None] it raises
    [TypeError] as soon as the chain has a staking provider. *)
Theorem mock_reservoir_spec stake_providers_accounts :
  (∀ members, ∃ addresses,
     mock_reservoir stake_providers_accounts (Some members)
     = Ok (StakingProvidersReservoir addresses)
     ∧ (∀ a, addresses !! a = Some 1%Z
             ↔ a ∈ stake_providers_accounts ∧ a ∉ members)
     ∧ (∀ a w, addresses !! a = Some w → w = 1%Z)
     ∧ dom addresses
       = list_to_set stake_providers_accounts ∖ list_to_set members)
  ∧ mock_reservoir stake_providers_accounts None
    = match stake_providers_accounts with
      | [] => Ok (StakingProvidersReservoir ∅)
      | _ => Raise TypeError
      end.
Proof.
  split; [|by destruct stake_providers_accounts].
  intros members. unfold mock_reservoir.
  destruct (mock_reservoir_addresses_lookup stake_providers_accounts members ∅)
    as (d & -> & Hd).
  exists d. split; [done|].
  assert (Hone : ∀ a, d !! a = Some 1%Z
                      ↔ a ∈ stake_providers_accounts ∧ a ∉ members).
  { intros a. rewrite Hd. case_bool_decide; [done|].
    rewrite lookup_empty. by split. }
  split_and!; [done|..].
  - intros a w. rewrite Hd. case_bool_decide; [congruence|].
    by rewrite lookup_empty.
  - apply set_eq. intros a.
    rewrite elem_of_dom, elem_of_difference, !elem_of_list_to_set.
    rewrite <-Hone. split; [|by eexists].
    intros [w Hw]. rewrite Hd in Hw. rewrite Hd.
    case_bool_decide; [done|]. by rewrite lookup_empty in Hw.
Qed.

Lemma walk_mock_filesystem_found items full_path i filename account :
  items !! i = Some (filename, account) →
  contains full_path filename = true →
  (∀ j filename' account', (j < i)%nat →
     items !! j = Some (filename', account') →
     contains full_path filename' = false) →
  walk_mock_filesystem items full_path = inr account.
Proof.
  revert i. induction items as [|[fn a] items IH]; intros i Hi Hin Hfirst;
    [done|].
  simpl. destruct i as [|i]; simpl in Hi.
  - injection Hi as -> ->. by rewrite Hin.
  - rewrite (Hfirst 0%nat fn a) by (done || lia).
    apply (IH i); [done..|].
    intros j fn' a' Hj. apply (Hfirst (S j)). lia.
Qed.

Lemma walk_mock_filesystem_not_found items full_path :
  (∀ filename account, (filename, account) ∈ items →
     contains full_path filename = false) →
  walk_mock_filesystem items full_path
  = inl (FileNotFoundError (text "No such file " ++ full_path)).
Proof.
  induction items as [|[fn a] items IH]; intros Hnone; [done|].
  simpl. rewrite (Hnone fn a) by left.
  apply IH. intros fn' a' Hin. apply (Hnone fn' a'). by right.
Qed.

(** X18.  [successful_mock_keyfile_reader] refuses, with [AssertionError],
    a path in which the path of the mock keystore does not occur, whatever
    the accounts are.  Otherwise it returns the address and the keyfile
    (version 3, the same address) of the first account, in the order of
    [mock_accounts], whose file name occurs in the path, and raises
    [FileNotFoundError], naming the path, when no file name does. *)
Theorem successful_mock_keyfile_reader_spec MOCK_KEYSTORE_PATH mock_accounts
    path :
  let read :=
    successful_mock_keyfile_reader MOCK_KEYSTORE_PATH mock_accounts path in
  (∀ s sub, contains s sub = true ↔ ∃ pre post, s = pre ++ sub ++ post)
  ∧ (contains path MOCK_KEYSTORE_PATH = false → read = inl AssertionError)
  ∧ (contains path MOCK_KEYSTORE_PATH = true →
     (∀ i filename account,
        mock_accounts !! i = Some (filename, account) →
        contains path filename = true →
        (∀ j filename' account', (j < i)%nat →
           mock_accounts !! j = Some (filename', account') →
           contains path filename' = false) →
        read = inr (address account,
                    {[ "version"%string := VInt 3;
                       "address"%string := VStr (address account) ]}))
     ∧ ((∀ filename account, (filename, account) ∈ mock_accounts →
           contains path filename = false) →
        read = inl (FileNotFoundError (text "No such file " ++ path)))).
Proof.
  intros read. unfold read, successful_mock_keyfile_reader.
  split_and!; [apply contains_spec|by intros ->|].
  intros ->. split.
  - intros i filename account Hi Hin Hfirst.
    by rewrite (walk_mock_filesystem_found _ _ i filename account).
  - intros Hnone. by rewrite walk_mock_filesystem_not_found.
Qed.

Lemma successful_mock_keyfile_reader_spec_witness :
  let keystore := text "/keystore/" in
  let accounts := [(text "UTC--1--0xA", {| address := text "0xA" |});
                   (text "UTC--2--0xB", {| address := text "0xB" |});
                   (text "0xB", {| address := text "0xC" |})] in
  let path := text "/home/keystore/UTC--2--0xB" in
  contains path keystore = true
  ∧ accounts !! 1%nat = Some (text "UTC--2--0xB", {| address := text "0xB" |})
  ∧ contains path (text "UTC--2--0xB") = true
  ∧ successful_mock_keyfile_reader keystore accounts path
    = inr (text "0xB", {[ "version"%string := VInt 3;
                          "address"%string := VStr (text "0xB") ]}).
Proof.
  intros keystore accounts path.
  split; [reflexivity|]. split; [reflexivity|]. split; [reflexivity|].
  apply (proj1 (proj2 (proj2 (successful_mock_keyfile_reader_spec
                                keystore accounts path)) eq_refl)
           1%nat (text "UTC--2--0xB") {| address := text "0xB" |});
    [reflexivity..|].
  intros j filename' account' Hj Hlook.
  destruct j as [|j]; [|lia]. by injection Hlook as <- <-.
Defined.

(** X19.  [mock_account] and [operator_account] are the same account, the
    one inserted first into [mock_accounts], and both raise [IndexError]
    when there is no account.  The keyfile reader finds that account: for
    every path in which the keystore path and the file name of the first
    account occur, it returns [operator_address], and a keyfile with that
    address. *)
Theorem operator_account_first MOCK_KEYSTORE_PATH
    (mock_accounts : accounts_dict) :
  mock_account mock_accounts = operator_account mock_accounts
  ∧ (mock_accounts = [] → operator_account mock_accounts = inl IndexError)
  ∧ (∀ filename account rest path,
       mock_accounts = (filename, account) :: rest →
       contains path MOCK_KEYSTORE_PATH = true →
       contains path filename = true →
       operator_account mock_accounts = inr account
       ∧ successful_mock_keyfile_reader MOCK_KEYSTORE_PATH mock_accounts path
         = inr (operator_address account,
                {[ "version"%string := VInt 3;
                   "address"%string := VStr (operator_address account) ]})).
Proof.
  split_and!.
  - by destruct mock_accounts.
  - by intros ->.
  - intros filename account rest path -> Hkeystore Hfile.
    split; [done|]. unfold successful_mock_keyfile_reader.
    rewrite Hkeystore. simpl. by rewrite Hfile.
Qed.

Lemma operator_account_first_witness :
  let keystore := text "/keystore/" in
  let first := {| address := text "0xA" |} in
  let accounts := [(text "UTC--1--0xA", first);
                   (text "UTC--2--0xB", {| address := text "0xB" |})] in
  contains (text "/keystore/UTC--1--0xA") keystore = true
  ∧ contains (text "/keystore/UTC--1--0xA") (text "UTC--1--0xA") = true
  ∧ operator_account accounts = inr first
  ∧ successful_mock_keyfile_reader keystore accounts
      (text "/keystore/UTC--1--0xA")
    = inr (text "0xA", {[ "version"%string := VInt 3;
                          "address"%string := VStr (text "0xA") ]}).
Proof.
  intros keystore first accounts.
  split; [reflexivity|]. split; [reflexivity|].
  exact (proj2 (proj2 (operator_account_first keystore accounts))
           (text "UTC--1--0xA") first _ (text "/keystore/UTC--1--0xA")
           eq_refl eq_refl eq_refl).
Defined.

(** ** Labels of ASCII text *)

Lemma utf8_encode_ascii_text s :
  Forall (λ c, c < 0x80) s → utf8_encode s = Some (byte_of <$> s).
Proof.
  induction 1 as [|c s Hc _ IH]; simpl; [done|].
  unfold utf8_encode_char. rewrite (proj2 (N.ltb_lt c 0x80) Hc). simpl.
  by rewrite IH.
Qed.

Lemma utf8_encode_char_length c bs :
  utf8_encode_char c = Some bs → (1 ≤ length bs ≤ 4)%nat.
Proof.
  unfold utf8_encode_char.
  repeat match goal with
    | |- context [if ?b then _ else _] => destruct b
    end; intros [= <-]; simpl; lia.
Qed.

Lemma utf8_encode_length s bs :
  utf8_encode s = Some bs → (length s ≤ length bs ≤ 4 * length s)%nat.
Proof.
  revert bs. induction s as [|c s IH]; intros bs; simpl.
  { intros [= <-]. simpl. lia. }
  destruct (utf8_encode_char c) as [cs|] eqn:Ec; [|done]. simpl.
  destruct (utf8_encode s) as [rs|]; [|done]. simpl. intros [= <-].
  apply utf8_encode_char_length in Ec. specialize (IH rs eq_refl).
  rewrite length_app. lia.
Qed.

(** X20.  The label of an ASCII text is the text, byte for byte; the label
    of any text that [Label.deserialize] accepts has at least as many bytes
    as the text has characters and at most four times as many. *)
Theorem Label_deserialize_size name s :
  (Forall (λ c, c < 0x80) s →
     deserialize name Label (VStr s) = Ok (VBytes (byte_of <$> s)))
  ∧ (∀ b, deserialize name Label (VStr s) = Ok (VBytes b) →
          (length s ≤ length b ≤ 4 * length s)%nat).
Proof.
  split.
  - intros Hs%utf8_encode_ascii_text.
    rewrite deserialize_Label by done. simpl. by rewrite Hs.
  - intros b. rewrite deserialize_Label by done. simpl.
    destruct (utf8_encode s) as [bs|] eqn:Es; [|done]. intros [= <-].
    by apply utf8_encode_length.
Qed.

Lemma Label_deserialize_size_witness :
  let s := [0x61; 0xE9; 0x20AC; 0x1F600] in
  let b := byte_of <$> [0x61; 0xC3; 0xA9; 0xE2; 0x82; 0xAC;
                        0xF0; 0x9F; 0x98; 0x80] in
  deserialize None Label (VStr s) = Ok (VBytes b)
  ∧ (length s ≤ length b ≤ 4 * length s)%nat.
Proof.
  intros s b.
  assert (H : deserialize None Label (VStr s) = Ok (VBytes b)) by reflexivity.
  split; [exact H|].
  exact (proj2 (Label_deserialize_size None s) b H).
Defined.
